(** * TokenHashGenerator: token verification, hash index build and lookup

    A shallow embedding of the Go sources
      - [main.go]            (flat-file verification handler, quota table),
      - the SQLite variant   (concurrent verification handler),
      - the index builder    ([calculateSHA256], [calculateAndStoreHashes],
                              [getTokenByHashFromFile]).
    Go [int] is 64 bit; it is modelled by [Z] and the only place where the
    machine width matters ([strconv.Atoi]) writes the bounds out.  Go strings
    are byte sequences and are modelled by [string] (a list of 8-bit
    [ascii]). *)

From Stdlib Require Import ZArith Ascii String List Bool Lia.
From Stdlib Require Import DecimalString DecimalZ DecimalPos DecimalFacts.
From stdpp Require Import base option list gmap strings fin_maps.

Local Open Scope string_scope.
Local Open Scope list_scope.
Local Open Scope Z_scope.

(** ** Go string primitives *)

Module GoString.

(** [len(s)] as a [Z]. *)
Definition len (s : string) : Z := Z.of_nat (String.length s).

(** The first [n] bytes of [s] (all of it when [s] is shorter). *)
Fixpoint take (n : nat) (s : string) : string :=
  match n, s with
  | S n', String c r => String c (take n' r)
  | _, _ => EmptyString
  end.

(** [s] without its first [n] bytes (empty when [s] is shorter). *)
Fixpoint drop (n : nat) (s : string) : string :=
  match n, s with
  | S n', String _ r => drop n' r
  | _, _ => s
  end.

(** [s[:n]]: a slice expression past the end of a string panics at run
    time; [None] stands for that panic. *)
Definition slice_to (s : string) (n : nat) : option string :=
  if (n <=? String.length s)%nat then Some (take n s) else None.

(** [s[n:]], with the same bounds check. *)
Definition slice_from (s : string) (n : nat) : option string :=
  if (n <=? String.length s)%nat then Some (drop n s) else None.

(** [strings.TrimLeft(s, "0")]: every leading byte ['0'] removed. *)
Fixpoint TrimLeft0 (s : string) : string :=
  match s with
  | String c r => if Ascii.eqb c "0"%char then TrimLeft0 r else s
  | EmptyString => EmptyString
  end.

(** [strings.Split(s, sep)] for a one-byte separator: the pieces between
    the occurrences of [sep]; always at least one piece. *)
Fixpoint Split (s : string) (sep : ascii) : list string :=
  match s with
  | EmptyString => [EmptyString]
  | String c r =>
      if Ascii.eqb c sep then EmptyString :: Split r sep
      else match Split r sep with
           | p :: ps => String c p :: ps
           | [] => [String c EmptyString]
           end
  end.

(** *** [strconv.Atoi] *)

Inductive NumError := ErrSyntax | ErrRange.

Definition maxUint64 : Z := 2 ^ 64 - 1.
Definition maxInt64 : Z := 2 ^ 63 - 1.
Definition minInt64 : Z := - 2 ^ 63.

Definition digit_val (c : ascii) : option Z :=
  let n := Z.of_nat (nat_of_ascii c) in
  if (48 <=? n) && (n <=? 57) then Some (n - 48) else None.

(** The digit loop of [strconv.ParseUint(s, 10, 64)]: the first offending
    byte decides between a syntax and a range error. *)
Fixpoint ParseUint_loop (s : string) (n : Z) : Z * option NumError :=
  match s with
  | EmptyString => (n, None)
  | String c r =>
      match digit_val c with
      | None => (0, Some ErrSyntax)
      | Some d =>
          if maxUint64 / 10 + 1 <=? n then (maxUint64, Some ErrRange)
          else
            let n1 := n * 10 + d in
            if maxUint64 <? n1 then (maxUint64, Some ErrRange)
            else ParseUint_loop r n1
      end
  end.

Definition ParseUint (s : string) : Z * option NumError :=
  match s with
  | EmptyString => (0, Some ErrSyntax)
  | _ => ParseUint_loop s 0
  end.

(** [strconv.Atoi(s)] on a 64-bit platform ([ParseInt(s, 10, 0)]; the fast
    path for short strings computes the same result). *)
Definition Atoi (s : string) : Z * option NumError :=
  match s with
  | EmptyString => (0, Some ErrSyntax)
  | String c r =>
      let neg := Ascii.eqb c "-"%char in
      let body := if neg || Ascii.eqb c "+"%char then r else s in
      match ParseUint body with
      | (_, Some ErrSyntax) => (0, Some ErrSyntax)
      | (un, _) =>
          if negb neg && (maxInt64 + 1 <=? un) then (maxInt64, Some ErrRange)
          else if neg && (maxInt64 + 1 <? un) then (minInt64, Some ErrRange)
          else (if neg then - un else un, None)
      end
  end.

(** [strconv.Itoa(n)]: the decimal representation of [n]. *)
Definition Itoa (n : Z) : string := NilZero.string_of_int (Z.to_int n).

End GoString.

Import GoString.

(** ** The quota table *)

(** [TokenMap]: level to maximum token value, the same literal in both
    verification programs. *)
Definition TokenMap : gmap Z Z :=
  list_to_map
    [
     (0, 0); (1, 5000000); (2, 2425000); (3, 2303750);
     (4, 2188563); (5, 2079134); (6, 1975178); (7, 1876419);
     (8, 1782598); (9, 1693468); (10, 1608795); (11, 1528355);
     (12, 1451937); (13, 1379340); (14, 1310373); (15, 1244855);
     (16, 1182612); (17, 1123481); (18, 1067307); (19, 1013942);
     (20, 963245); (21, 915082); (22, 869328); (23, 825862);
     (24, 784569); (25, 745340); (26, 708073); (27, 672670);
     (28, 639036); (29, 607084); (30, 576730); (31, 547894);
     (32, 520499); (33, 494474); (34, 469750); (35, 446263);
     (36, 423950); (37, 402752); (38, 382615); (39, 363484);
     (40, 345310); (41, 328044); (42, 311642); (43, 296060);
     (44, 281257); (45, 267194); (46, 253834); (47, 241143);
     (48, 229085); (49, 217631); (50, 206750); (51, 196412);
     (52, 186592); (53, 177262); (54, 168399); (55, 159979);
     (56, 151980); (57, 144381); (58, 137162); (59, 130304);
     (60, 117273); (61, 105546); (62, 94992); (63, 85492);
     (64, 76943); (65, 69249); (66, 62324); (67, 56092);
     (68, 50482); (69, 45434); (70, 40891); (71, 36802);
     (72, 33121); (73, 29809); (74, 26828); (75, 24146);
     (76, 21731); (77, 19558); (78, 17602)
    ].

(** [TokenMap[level]]: indexing a Go map with an absent key yields the zero
    value of the element type. *)
Definition TokenMap_at (level : Z) : Z := default 0 (TokenMap !! level).

(** ** Reading the hash file line by line *)

Module Scanner.

(** [bufio.MaxScanTokenSize]: a line that does not fit the scanner's buffer
    stops the scan with [ErrTooLong]. *)
Definition MaxScanTokenSize : Z := 64 * 1024.

(** [dropCR]: one trailing carriage return removed. *)
Fixpoint dropCR (s : string) : string :=
  match s with
  | EmptyString => EmptyString
  | String c EmptyString => if Ascii.eqb c "013"%char then EmptyString else s
  | String c r => String c (dropCR r)
  end.

(** The newline-separated pieces of the file; the piece after the last
    newline is a line only when it is not empty ([bufio.ScanLines]). *)
Fixpoint raw_lines (data : string) : list string :=
  match data with
  | EmptyString => []
  | String c r =>
      if Ascii.eqb c "010"%char then EmptyString :: raw_lines r
      else match raw_lines r with
           | l :: ls => String c l :: ls
           | [] => [String c EmptyString]
           end
  end.

(** The successive results of [scanner.Scan()]/[scanner.Text()], and
    whether the scan stopped on an error ([scanner.Err() != nil]): lines
    are delivered up to the first one that is too long. *)
Fixpoint scan (raw : list string) : list string * bool :=
  match raw with
  | [] => ([], false)
  | l :: rest =>
      if MaxScanTokenSize <=? len l then ([], true)
      else let '(ls, e) := scan rest in (dropCR l :: ls, e)
  end.

Definition lines (data : string) : list string := (scan (raw_lines data)).1.
Definition Err (data : string) : bool := (scan (raw_lines data)).2.

End Scanner.

(** ** Verification against the flat file ([main.go]) *)

(** What a request handler does with a request. *)
Inductive response (A : Type) :=
  | BadRequest
  | InternalServerError
  | Panicked
  | OK (body : A).
Arguments BadRequest {A}.
Arguments InternalServerError {A}.
Arguments Panicked {A}.
Arguments OK {A} body.

(** [0 < tokenNumber && tokenNumber <= maxTokenValue]. *)
Definition within_quota (tokenNumber level : Z) : bool :=
  (0 <? tokenNumber) && (tokenNumber <=? TokenMap_at level).

(** The level of a token: [strconv.Atoi] of the first three bytes without
    their leading zeros, the conversion error discarded. *)
Definition token_level (prefix : string) : Z := (Atoi (TrimLeft0 prefix)).1.

Module FileVerifier.

(** The inner [for scanner.Scan()] loop: the first line that splits into
    exactly two parts with the second equal to [hash] decides;
    [None] when the loop ends with [found == false]. *)
Fixpoint search (ls : list string) (hash : string) (level : Z) : option bool :=
  match ls with
  | [] => None
  | line :: rest =>
      match Split line ":" with
      | [p0; p1] =>
          if String.eqb p1 hash then Some (within_quota (Atoi p0).1 level)
          else search rest hash level
      | _ => search rest hash level
      end
  end.

(** The identifier the file gives for [hash], as that loop reads it: the
    number before the colon of the first matching line, with the
    conversion error discarded. *)
Fixpoint resolve (ls : list string) (hash : string) : option Z :=
  match ls with
  | [] => None
  | line :: rest =>
      match Split line ":" with
      | [p0; p1] =>
          if String.eqb p1 hash then Some (Atoi p0).1 else resolve rest hash
      | _ => resolve rest hash
      end
  end.

(** One iteration of the loop over the input tokens; [None] is the
    run-time panic of a slice expression out of range. *)
Definition verifyToken (data : string) (tokenHash : string) : option bool :=
  prefix ← slice_to tokenHash 3;
  hash ← slice_from tokenHash 3;
  Some (default false (search (Scanner.lines data) hash (token_level prefix))).

(** The loop over the tokens, writing [results[tokenHash]]; the file is
    rewound and rescanned for every token. *)
Fixpoint verifyLoop (data : string) (input : list string)
    (results : gmap string bool) : option (gmap string bool) :=
  match input with
  | [] => Some results
  | tokenHash :: rest =>
      b ← verifyToken data tokenHash;
      verifyLoop data rest (<[tokenHash := b]> results)
  end.

(** [verifyTokensHandler]: [body] is the decoded request body ([None] when
    it is not a JSON list of strings), [file] the contents of
    [token_hashes.txt] ([None] when it cannot be opened).  Rewinding the
    open file with [file.Seek(0, 0)] is taken to succeed. *)
Definition verifyTokensHandler (file : option string)
    (body : option (list string)) : response (gmap string bool) :=
  match body with
  | None => BadRequest
  | Some input =>
      match file with
      | None => InternalServerError
      | Some data =>
          match verifyLoop data input ∅ with
          | Some results => OK results
          | None => Panicked
          end
      end
  end.

End FileVerifier.

(** ** Verification against the database (SQLite variant) *)

Module DbVerifier.

(** The outcome of [stmtVerifyToken.QueryRow(hash).Scan(&n)]. *)
Inductive QueryResult :=
  | Row (tokenNumber : Z)
  | ErrNoRows
  | DbError.

(** The body of the goroutine started for one token; [None] is the
    run-time panic of a slice expression out of range, which happens before
    the length check. *)
Definition verifyToken (db : string -> QueryResult) (tokenHash : string)
    : option bool :=
  prefix ← slice_to tokenHash 3;
  let level := token_level prefix in
  hash ← slice_from tokenHash 3;
  if negb (String.length tokenHash =? 67)%nat then Some false
  else match db hash with
       | Row n => Some (within_quota n level)
       | ErrNoRows | DbError => Some false
       end.

(** The goroutines in the order [sched] in which they reach their write to
    [results]; a panic in any of them ends the process. *)
Fixpoint runTasks (db : string -> QueryResult) (sched : list string)
    (results : gmap string bool) : option (gmap string bool) :=
  match sched with
  | [] => Some results
  | tokenHash :: rest =>
      b ← verifyToken db tokenHash;
      runTasks db rest (<[tokenHash := b]> results)
  end.

(** [verifyTokensHandler]: [body] is the decoded [tokens] field, [sched] a
    schedule of the goroutines (a permutation of the tokens); the prepared
    statement is taken to exist. *)
Definition verifyTokensHandler (db : string -> QueryResult)
    (body : option (list string)) (sched : list string)
    : response (gmap string bool) :=
  match body with
  | None => BadRequest
  | Some _ =>
      match runTasks db sched ∅ with
      | Some results => OK results
      | None => Panicked
      end
  end.

End DbVerifier.

(** ** The content hasher *)

(** [crypto/sha256] as the program uses it: a [digest] object created by
    [New], fed by [Write] and read by [Sum].  32-bit words are [Z] reduced
    modulo [2^32]; bytes are [Z] below [256]. *)
Module Sha256.

Definition chunk : nat := 64.

Definition w32 (v : Z) : Z := v mod 2 ^ 32.
Definition add32 (a b : Z) : Z := w32 (a + b).
Definition rotr (v n : Z) : Z :=
  Z.lor (Z.shiftr v n) (w32 (Z.shiftl v (32 - n))).
Definition not32 (v : Z) : Z := Z.lxor v 0xffffffff.

(** The round constants and the initial chaining value, in decimal. *)
Definition _K : list Z :=
  [
    1116352408; 1899447441; 3049323471; 3921009573; 961987163;
    1508970993; 2453635748; 2870763221; 3624381080; 310598401;
    607225278; 1426881987; 1925078388; 2162078206; 2614888103;
    3248222580; 3835390401; 4022224774; 264347078; 604807628;
    770255983; 1249150122; 1555081692; 1996064986; 2554220882;
    2821834349; 2952996808; 3210313671; 3336571891; 3584528711;
    113926993; 338241895; 666307205; 773529912; 1294757372;
    1396182291; 1695183700; 1986661051; 2177026350; 2456956037;
    2730485921; 2820302411; 3259730800; 3345764771; 3516065817;
    3600352804; 4094571909; 275423344; 430227734; 506948616;
    659060556; 883997877; 958139571; 1322822218; 1537002063;
    1747873779; 1955562222; 2024104815; 2227730452; 2361852424;
    2428436474; 2756734187; 3204031479; 3329325298
  ].

Definition init : list Z :=
  [
    1779033703; 3144134277; 1013904242; 2773480762;
    1359893119; 2600822924; 528734635; 1541459225
  ].

(** The hasher object: chaining value [h], the bytes [x] of an incomplete
    block ([nx] is their number) and the total length [len]. *)
Record digest := Digest { h : list Z; x : list Z; len : Z }.

Definition word_at (w : list Z) (i : nat) : Z := nth i w 0.

(** Big-endian word of four bytes. *)
Definition be32 (p : list Z) (j : nat) : Z :=
  Z.lor (Z.lor (Z.shiftl (word_at p j) 24) (Z.shiftl (word_at p (j + 1)) 16))
        (Z.lor (Z.shiftl (word_at p (j + 2)) 8) (word_at p (j + 3))).

(** [w[i]] for [i] from 16 to 63, appended one at a time. *)
Fixpoint expand (n : nat) (w : list Z) : list Z :=
  match n with
  | O => w
  | S n' =>
      let i := length w in
      let v1 := word_at w (i - 2) in
      let t1 := Z.lxor (Z.lxor (rotr v1 17) (rotr v1 19)) (Z.shiftr v1 10) in
      let v2 := word_at w (i - 15) in
      let t2 := Z.lxor (Z.lxor (rotr v2 7) (rotr v2 18)) (Z.shiftr v2 3) in
      expand n'
        (w ++ [add32 (add32 (add32 t1 (word_at w (i - 7))) t2)
                     (word_at w (i - 16))])
  end.

Definition regs : Type := Z * Z * Z * Z * Z * Z * Z * Z.

(** One of the 64 rounds. *)
Definition round (r : regs) (kw : Z * Z) : regs :=
  let '(a, b, c, d, e, f, g, hh) := r in
  let t1 :=
    add32 (add32 (add32 (add32 hh
      (Z.lxor (Z.lxor (rotr e 6) (rotr e 11)) (rotr e 25)))
      (Z.lxor (Z.land e f) (Z.land (not32 e) g))) kw.1) kw.2 in
  let t2 :=
    add32 (Z.lxor (Z.lxor (rotr a 2) (rotr a 13)) (rotr a 22))
          (Z.lxor (Z.lxor (Z.land a b) (Z.land a c)) (Z.land b c)) in
  (add32 t1 t2, a, b, c, add32 d t1, e, f, g).

(** The compression of one 64-byte block into the chaining value. *)
Definition block1 (hs : list Z) (p : list Z) : list Z :=
  let w := expand 48 (map (fun i => be32 p (4 * i)) (seq 0 16)) in
  let r0 := (word_at hs 0, word_at hs 1, word_at hs 2, word_at hs 3,
             word_at hs 4, word_at hs 5, word_at hs 6, word_at hs 7) in
  let '(a, b, c, d, e, f, g, hh) := fold_left round (combine _K w) r0 in
  map (fun '(u, v) => add32 u v) (combine hs [a; b; c; d; e; f; g; hh]).

(** [block(d, p)]: every complete block of [p], in order. *)
Fixpoint block (n : nat) (hs : list Z) (p : list Z) : list Z :=
  match n with
  | O => hs
  | S n' => block n' (block1 hs (firstn chunk p)) (skipn chunk p)
  end.

(** [d.Write(p)]. *)
Definition Write (d : digest) (p : list Z) : digest :=
  let len' := (len d + Z.of_nat (length p)) mod 2 ^ 64 in
  (* complete a pending block first *)
  let n := if (0 <? length (x d))%nat
           then Nat.min (chunk - length (x d)) (length p) else O in
  let x1 := x d ++ firstn n p in
  let full := (length x1 =? chunk)%nat in
  let h1 := if full then block1 (h d) x1 else h d in
  let x2 := if full then [] else x1 in
  let p1 := skipn n p in
  (* then the complete blocks of the rest *)
  let k := (length p1 / chunk)%nat in
  let h2 := block k h1 p1 in
  let p2 := skipn (k * chunk) p1 in
  Digest h2 (if (0 <? length p2)%nat then p2 else x2) len'.

(** Big-endian bytes of a [w]-byte word. *)
Fixpoint be_bytes (w : nat) (v : Z) : list Z :=
  match w with
  | O => []
  | S w' => Z.land (Z.shiftr v (8 * Z.of_nat w')) 255 :: be_bytes w' v
  end.

(** [d.checkSum()]: padding, the length in bits, and the digest bytes. *)
Definition checkSum (d : digest) : list Z :=
  let l := len d in
  let t := if l mod 64 <? 56 then 56 - l mod 64 else 64 + 56 - l mod 64 in
  let padlen :=
    firstn (Z.to_nat t) (0x80 :: repeat 0 (64 + 8))
      ++ be_bytes 8 (Z.shiftl l 3 mod 2 ^ 64) in
  let d' := Write d padlen in
  concat (map (be_bytes 4) (h d')).

(** [sha256.New()]. *)
Definition New : digest := Digest init [] 0.

(** [d.Sum(in)] works on a copy of [d]. *)
Definition Sum (d : digest) (b : list Z) : list Z := b ++ checkSum d.

End Sha256.

(** [[]byte(s)]. *)
Definition bytes_of_string (s : string) : list Z :=
  map (fun c => Z.of_nat (nat_of_ascii c)) (list_ascii_of_string s).

(** [hex.EncodeToString]. *)
Definition hex_digit (v : Z) : ascii :=
  ascii_of_nat (Z.to_nat (if v <? 10 then 48 + v else 87 + v)).

Fixpoint EncodeToString (b : list Z) : string :=
  match b with
  | [] => EmptyString
  | v :: r =>
      String (hex_digit (Z.shiftr v 4))
        (String (hex_digit (Z.land v 15)) (EncodeToString r))
  end.

(** The hasher objects of a running process, addressed by position. *)
Definition hashers : Type := list Sha256.digest.

(** [calculateSHA256(input)] with the hasher objects threaded through:
    [sha256.New()] allocates, [Write] updates the new object in place and
    [Sum(nil)] reads it. *)
Definition calculateSHA256_in (input : string) (heap : hashers)
    : string * hashers :=
  let hasher := length heap in
  let heap1 := heap ++ [Sha256.New] in
  let heap2 := alter (fun d => Sha256.Write d (bytes_of_string input))
                     hasher heap1 in
  (EncodeToString
     (Sha256.Sum (default Sha256.New (heap2 !! hasher)) []), heap2).

(** [calculateSHA256(input)] as a function of its argument. *)
Definition calculateSHA256 (input : string) : string :=
  (calculateSHA256_in input []).1.

(** ** Building the hash file *)

Module Builder.

Definition concurrency : nat := 100.
Definition bufferSize : Z := 1024 * 1024.
Definition channelBufferSize : nat := 1000.

Definition newline : string := String "010"%char EmptyString.

(** The line a worker sends: [fmt.Sprintf("%d:%s\n", tokenNumber, hash)]
    with [hash := calculateSHA256(strconv.Itoa(tokenNumber))]. *)
Definition record (tokenNumber : Z) : string :=
  Itoa tokenNumber +:+ ":" +:+ calculateSHA256 (Itoa tokenNumber) +:+ newline.

(** The file behind [os.Create]: what has reached it, and whether it has
    been closed. *)
Record File := mkFile { content : string; closed : bool }.

(** [file.Write(p)]; the flag reports an error (writing to a closed file
    fails and writes nothing). *)
Definition file_write (f : File) (p : string) : File * bool :=
  if closed f then (f, true) else (mkFile (content f +:+ p) false, false).

(** [bufio.Writer]: the buffered bytes and the sticky error. *)
Record Writer := mkWriter { buf : string; err : bool }.

Definition Available (w : Writer) : Z := bufferSize - GoString.len (buf w).

(** [writer.Flush()]. *)
Definition Flush (w : Writer) (f : File) : Writer * File :=
  if err w then (w, f)
  else if GoString.len (buf w) =? 0 then (w, f)
  else
    let '(f', e) := file_write f (buf w) in
    if e then (mkWriter (buf w) true, f') else (mkWriter EmptyString false, f').

(** One turn of the loop of [writer.WriteString(s)], taken while [s] does
    not fit the free space: an empty buffer forwards [s] to the file, a
    partly filled one is topped up and flushed.  The rest of [s] is
    returned. *)
Definition WriteString_turn (w : Writer) (f : File) (s : string)
    : Writer * File * string :=
  if (Available w <? GoString.len s) && negb (err w) then
    if GoString.len (buf w) =? 0 then
      let '(f', e) := file_write f s in
      if e then (mkWriter (buf w) true, f', s)
      else (w, f', EmptyString)
    else
      let n := Z.to_nat (Available w) in
      let '(w', f') := Flush (mkWriter (buf w +:+ take n s) false) f in
      (w', f', drop n s)
  else (w, f, s).

(** [writer.WriteString(s)]: the loop takes at most two turns (after the
    first the buffer is empty or the writer has failed). *)
Definition WriteString (w : Writer) (f : File) (s : string) : Writer * File :=
  let '(w1, f1, s1) := WriteString_turn w f s in
  let '(w2, f2, s2) := WriteString_turn w1 f1 s1 in
  if err w2 then (w2, f2) else (mkWriter (buf w2 +:+ s2) false, f2).

(** Where the goroutine running [calculateAndStoreHashes] stands. *)
Inductive main_pc :=
  | MLoop          (* in the [for i := 0; i <= limit; i++] loop *)
  | MWait          (* at [wg.Wait()] *)
  | MClose         (* at [close(hashChannel)] *)
  | MDeferFlush    (* returning: deferred [writer.Flush()] *)
  | MDeferClose    (* returning: deferred [file.Close()] *)
  | MReturned.

(** What a worker goroutine does next. *)
Inductive worker_pc :=
  | WSend          (* [hashChannel <- ...] *)
  | WRelease       (* deferred [<-semaphore] *)
  | WDone.         (* deferred [wg.Done()] *)

#[global] Instance worker_pc_eq_dec : EqDecision worker_pc.
Proof. solve_decision. Defined.

(** What the writer goroutine does next. *)
Inductive writer_pc :=
  | RRange         (* [for hash := range hashChannel] *)
  | RFlush         (* the [writer.Flush()] after the loop *)
  | RExited.

(** The state of a build.  [workers] holds the worker goroutines that have
    been started and have not finished, by token number; [sent] is the
    history of the channel: the token numbers whose line has been sent, in
    the order of the sends. *)
Record state := mkState {
  i : Z;
  mpc : main_pc;
  wg : Z;
  semaphore : nat;
  workers : gmap Z worker_pc;
  hashChannel : list string;
  chan_closed : bool;
  sent : list Z;
  writer : Writer;
  file : File;
  rpc : writer_pc
}.

(** The state after [os.Create] succeeded and the writer goroutine has
    been started. *)
Definition init : state :=
  mkState 0 MLoop 0 0 ∅ [] false [] (mkWriter EmptyString false)
          (mkFile EmptyString false) RRange.

Inductive goroutine :=
  | Main
  | Worker (tokenNumber : Z)
  | WriterG.

(** The next step of the main goroutine; [None] when it is blocked or has
    returned.  One iteration of the loop, [wg.Add(1)], the send to
    [semaphore] and the [go] statement, is one step; it waits for a free
    slot of the semaphore. *)
Definition step_main (limit : Z) (s : state) : option state :=
  match mpc s with
  | MLoop =>
      if i s <=? limit then
        if (semaphore s <? concurrency)%nat then
          Some (mkState (i s + 1) MLoop (wg s + 1) (S (semaphore s))
                  (<[i s := WSend]> (workers s)) (hashChannel s)
                  (chan_closed s) (sent s) (writer s) (file s) (rpc s))
        else None
      else
        Some (mkState (i s) MWait (wg s) (semaphore s) (workers s)
                (hashChannel s) (chan_closed s) (sent s) (writer s) (file s)
                (rpc s))
  | MWait =>
      if wg s =? 0 then
        Some (mkState (i s) MClose (wg s) (semaphore s) (workers s)
                (hashChannel s) (chan_closed s) (sent s) (writer s) (file s)
                (rpc s))
      else None
  | MClose =>
      Some (mkState (i s) MDeferFlush (wg s) (semaphore s) (workers s)
              (hashChannel s) true (sent s) (writer s) (file s) (rpc s))
  | MDeferFlush =>
      let '(w, f) := Flush (writer s) (file s) in
      Some (mkState (i s) MDeferClose (wg s) (semaphore s) (workers s)
              (hashChannel s) (chan_closed s) (sent s) w f (rpc s))
  | MDeferClose =>
      Some (mkState (i s) MReturned (wg s) (semaphore s) (workers s)
              (hashChannel s) (chan_closed s) (sent s) (writer s)
              (mkFile (content (file s)) true) (rpc s))
  | MReturned => None
  end.

(** The next step of the worker for [tokenNumber]; [None] when there is no
    such worker or it is blocked on a full channel. *)
Definition step_worker (tokenNumber : Z) (s : state) : option state :=
  match workers s !! tokenNumber with
  | None => None
  | Some WSend =>
      if negb (chan_closed s)
         && (length (hashChannel s) <? channelBufferSize)%nat then
        Some (mkState (i s) (mpc s) (wg s) (semaphore s)
                (<[tokenNumber := WRelease]> (workers s))
                (hashChannel s ++ [record tokenNumber]) (chan_closed s)
                (sent s ++ [tokenNumber]) (writer s) (file s) (rpc s))
      else None
  | Some WRelease =>
      Some (mkState (i s) (mpc s) (wg s) (pred (semaphore s))
              (<[tokenNumber := WDone]> (workers s)) (hashChannel s)
              (chan_closed s) (sent s) (writer s) (file s) (rpc s))
  | Some WDone =>
      Some (mkState (i s) (mpc s) (wg s - 1) (semaphore s)
              (delete tokenNumber (workers s)) (hashChannel s)
              (chan_closed s) (sent s) (writer s) (file s) (rpc s))
  end.

(** The next step of the writer goroutine. *)
Definition step_writer (s : state) : option state :=
  match rpc s with
  | RRange =>
      match hashChannel s with
      | hash :: rest =>
          let '(w, f) := WriteString (writer s) (file s) hash in
          Some (mkState (i s) (mpc s) (wg s) (semaphore s) (workers s) rest
                  (chan_closed s) (sent s) w f RRange)
      | [] =>
          if chan_closed s then
            Some (mkState (i s) (mpc s) (wg s) (semaphore s) (workers s) []
                    (chan_closed s) (sent s) (writer s) (file s) RFlush)
          else None
      end
  | RFlush =>
      let '(w, f) := Flush (writer s) (file s) in
      Some (mkState (i s) (mpc s) (wg s) (semaphore s) (workers s)
              (hashChannel s) (chan_closed s) (sent s) w f RExited)
  | RExited => None
  end.

Definition step (limit : Z) (g : goroutine) (s : state) : option state :=
  match g with
  | Main => step_main limit s
  | Worker n => step_worker n s
  | WriterG => step_writer s
  end.

(** [calculateAndStoreHashes(limit, filename)] under a schedule: the
    goroutines take their steps in the order given; [None] when the schedule
    asks a goroutine to step that cannot. *)
Fixpoint run (limit : Z) (sched : list goroutine) (s : state)
    : option state :=
  match sched with
  | [] => Some s
  | g :: rest => s' ← step limit g s; run limit rest s'
  end.

(** The call has returned to its caller. *)
Definition returned (s : state) : bool :=
  match mpc s with MReturned => true | _ => false end.

(** Every goroutine of the build has finished. *)
Definition quiescent (s : state) : bool :=
  returned s
  && bool_decide (workers s = ∅)
  && match rpc s with RExited => true | _ => false end.

(** The entries of the persisted index: the lines of the file. *)
Definition index (s : state) : list string :=
  Scanner.lines (content (file s)).

(** What every reachable state of a build satisfies: the loop counter
    stays in range, the live workers are among the token numbers already
    started, the wait group counts them, and a token number has been sent
    exactly when its worker was started and is past its send; the channel
    holds the lines of the token numbers sent last. *)
Record Inv (limit : Z) (s : state) : Prop := {
  inv_i : 0 <= i s <= Z.max 0 (limit + 1);
  inv_loop_done :
    mpc s ≠ MLoop → i s = Z.max 0 (limit + 1);
  inv_workers :
    ∀ j pc, workers s !! j = Some pc → 0 <= j < i s;
  inv_nodup : NoDup (sent s);
  inv_sent :
    ∀ j, j ∈ sent s ↔
         0 <= j < i s ∧ workers s !! j ≠ Some WSend;
  inv_wg : wg s = Z.of_nat (size (workers s));
  inv_waited :
    mpc s ≠ MLoop → mpc s ≠ MWait →
    workers s = ∅;
  inv_chan :
    ∃ k, (k <= length (sent s))%nat
         ∧ hashChannel s = record <$> skipn k (sent s)
}.

End Builder.

(** ** Lookup by hash in the flat file *)

Module HashFile.

Inductive LookupError :=
  | ErrOpeningFile
  | ErrInvalidTokenNumber
  | ErrScanningFile
  | ErrHashNotFound.

(** The scanning loop of [getTokenByHashFromFile]; [None] when the loop
    runs to its end without returning. *)
Fixpoint search (ls : list string) (hash : string)
    : option (Z * option LookupError) :=
  match ls with
  | [] => None
  | line :: rest =>
      match Split line ":" with
      | [p0; p1] =>
          if String.eqb p1 hash then
            match Atoi p0 with
            | (tokenNumber, None) => Some (tokenNumber, None)
            | (_, Some _) => Some (0, Some ErrInvalidTokenNumber)
            end
          else search rest hash
      | _ => search rest hash
      end
  end.

(** A line whose second of exactly two colon-separated fields is [hash]. *)
Definition matches (hash line : string) : bool :=
  match Split line ":" with
  | [_; p1] => String.eqb p1 hash
  | _ => false
  end.

(** The first colon-separated field of a line. *)
Definition id_field (line : string) : string :=
  match Split line ":" with
  | p0 :: _ => p0
  | [] => EmptyString
  end.

(** The first line, in file order, that matches [hash]. *)
Definition first_match (ls : list string) (hash : string) : option string :=
  List.find (matches hash) ls.

(** [getTokenByHashFromFile(hash, filename)]; [file] is the contents of the
    named file, [None] when it cannot be opened. *)
Definition getTokenByHashFromFile (hash : string) (file : option string)
    : Z * option LookupError :=
  match file with
  | None => (0, Some ErrOpeningFile)
  | Some data =>
      match search (Scanner.lines data) hash with
      | Some r => r
      | None =>
          if Scanner.Err data then (0, Some ErrScanningFile)
          else (0, Some ErrHashNotFound)
      end
  end.

End HashFile.

(** ** The lookup handlers *)

Module LookupHandlers.

(** [strings.TrimPrefix(s, prefix)]: [s] without the leading [prefix], or
    [s] itself when it does not start with it. *)
Definition TrimPrefix (s prefix : string) : string :=
  if String.prefix prefix s then drop (String.length prefix) s else s.

(** The value stored for a hash in the response of [handleGetTokenByHash]:
    the token number, or the error of the lookup (sent as its message). *)
Definition entry : Type := Z + HashFile.LookupError.

(** [response[hash] = ...] for one hash. *)
Definition lookup_entry (file : option string) (hash : string) : entry :=
  match HashFile.getTokenByHashFromFile hash file with
  | (tokenNumber, None) => inl tokenNumber
  | (_, Some e) => inr e
  end.

(** The loop over [hashes] that fills the response. *)
Fixpoint fill (file : option string) (hashes : list string)
    (response : gmap string entry) : gmap string entry :=
  match hashes with
  | [] => response
  | hash :: rest => fill file rest (<[hash := lookup_entry file hash]> response)
  end.

(** [handleGetTokenByHash(filename)]: [hashes] is what decoding the body
    left in the variable, [decodeFailed] whether decoding returned an
    error, [path] the URL path and [file] the contents of the hash file
    ([None] when it cannot be opened). *)
Definition handleGetTokenByHash (file : option string)
    (hashes : list string) (decodeFailed : bool) (path : string)
    : response (gmap string entry) :=
  if decodeFailed then
    let hash := TrimPrefix path "/token/" in
    if negb (String.eqb hash "") then OK (fill file (hashes ++ [hash]) ∅)
    else BadRequest
  else OK (fill file hashes ∅).

(** What [handleGetLevelTokenByHash] answers. *)
Inductive levelTokenResponse :=
  | MissingInput                       (* 400 "Missing level and hash value" *)
  | InvalidInputFormat                 (* 400 "Invalid input format ..." *)
  | InvalidLevelFormat                 (* 400 "Invalid level format" *)
  | LookupFailed (e : HashFile.LookupError)            (* 404 *)
  | IpfsFailed                         (* 500 "Error adding to IPFS" *)
  | Found (Result CID : string).       (* {"Result": ..., "CID": ...} *)

(** [handleGetLevelTokenByHash(filename)]: [addStringToIPFS] is the call to
    the IPFS daemon, which returns the CID of the string or fails. *)
Definition handleGetLevelTokenByHash (addStringToIPFS : string → option string)
    (file : option string) (path : string) : levelTokenResponse :=
  let input := TrimPrefix path "/leveltoken/" in
  if String.eqb input "" then MissingInput
  else
    match Split input "-" with
    | [level; hash] =>
        match Atoi level with
        | (_, Some _) => InvalidLevelFormat
        | (_, None) =>
            match HashFile.getTokenByHashFromFile hash file with
            | (_, Some e) => LookupFailed e
            | (tokenNumber, None) =>
                let result := level +:+ Itoa tokenNumber in
                match addStringToIPFS result with
                | None => IpfsFailed
                | Some cid => Found result cid
                end
            end
        end
    | _ => InvalidInputFormat
    end.

End LookupHandlers.

(** ** Flattening the keys of a JSON document ([flattenMapping.go]) *)

Module Flatten.

(** [isInteger(s)]: whether [strconv.Atoi] accepts [s]. *)
Definition isInteger (s : string) : bool :=
  match (Atoi s).2 with
  | None => true
  | Some _ => false
  end.

(** A decoded JSON value: an object ([map[string]interface{}], its
    entries in the order in which [range] visits them), an array
    ([[]interface{}]) or any other value, which the program does not
    inspect. *)
#[warnings="-register-all"]
Inductive json (scalar : Type) :=
  | JObject (entries : list (string * json scalar))
  | JArray (items : list (json scalar))
  | JScalar (v : scalar).
Arguments JObject {scalar} entries.
Arguments JArray {scalar} items.
Arguments JScalar {scalar} v.

(** [m[key] = v] on a map kept as the list of its bindings: the binding of
    [key] is replaced, or added when there is none. *)
Fixpoint assign {A : Type} (key : string) (v : A) (m : list (string * A))
    : list (string * A) :=
  match m with
  | [] => [(key, v)]
  | (k, x) :: rest =>
      if String.eqb k key then (key, v) :: rest
      else (k, x) :: assign key v rest
  end.

(** The key under which an integer key [k] is stored below [parentKey]. *)
Definition joined (parentKey k : string) : string :=
  if negb (String.eqb parentKey "") then parentKey +:+ "-" +:+ k else k.

(** [flattenKeys(parentKey, value)].  The program stores the flattened
    items back into the array it was given before returning it; the value
    returned is modelled, not that change of the argument. *)
Fixpoint flattenKeys {scalar : Type} (parentKey : string)
    (value : json scalar) : json scalar :=
  match value with
  | JObject entries =>
      JObject
        (fold_left
           (fun flattenedMap kv =>
              let '(k, nestedValue) := kv in
              if isInteger k then
                let newKey := joined parentKey k in
                assign newKey (flattenKeys newKey nestedValue) flattenedMap
              else
                assign k (flattenKeys parentKey nestedValue) flattenedMap)
           entries [])
  | JArray items => JArray (map (flattenKeys parentKey) items)
  | JScalar v => JScalar v
  end.

(** One assignment of the loop over an object: the key and the value
    stored for the entry [kv]. *)
Definition flatten_entry {scalar : Type} (parentKey : string)
    (kv : string * json scalar) : string * json scalar :=
  if isInteger kv.1
  then (joined parentKey kv.1, flattenKeys (joined parentKey kv.1) kv.2)
  else (kv.1, flattenKeys parentKey kv.2).

(** No key of [value], at any depth, is an integer, and no object has a
    key twice. *)
Fixpoint no_int_key {scalar : Type} (value : json scalar) : Prop :=
  match value with
  | JObject entries =>
      NoDup entries.*1
      ∧ fold_right
          (fun kv rest => isInteger kv.1 = false ∧ no_int_key kv.2 ∧ rest)
          True entries
  | JArray items => fold_right (fun v rest => no_int_key v ∧ rest) True items
  | JScalar _ => True
  end.

(** Integer keys occur in [value] only outside the values of integer
    keys, and no object has a key twice. *)
Fixpoint settled {scalar : Type} (value : json scalar) : Prop :=
  match value with
  | JObject entries =>
      NoDup entries.*1
      ∧ fold_right
          (fun kv rest =>
             (if isInteger kv.1 then no_int_key kv.2 else settled kv.2)
             ∧ rest)
          True entries
  | JArray items => fold_right (fun v rest => settled v ∧ rest) True items
  | JScalar _ => True
  end.

(** The same document with the entries of its objects in another order,
    as another [range] over the same maps may visit them. *)
#[warnings="-register-all"]
Inductive reordered {scalar : Type} : json scalar → json scalar → Prop :=
  | reordered_object entries entries' entries'' :
      Forall2 (fun kv kv' => kv.1 = kv'.1 ∧ reordered kv.2 kv'.2)
              entries entries' →
      entries' ≡ₚ entries'' →
      reordered (JObject entries) (JObject entries'')
  | reordered_array items items' :
      Forall2 reordered items items' →
      reordered (JArray items) (JArray items')
  | reordered_scalar v : reordered (JScalar v) (JScalar v).

End Flatten.

(** ** Notions used in the statements *)

(** Whether the byte [c] occurs in [s]. *)
Fixpoint has_char (c : ascii) (s : string) : bool :=
  match s with
  | EmptyString => false
  | String c' r => Ascii.eqb c' c || has_char c r
  end.

(** Whether every byte of [s] satisfies [P]. *)
Fixpoint all_chars (P : ascii → bool) (s : string) : bool :=
  match s with
  | EmptyString => true
  | String c r => P c && all_chars P r
  end.

(** The decimal digits, and the digits of lower-case hexadecimal. *)
Definition is_digit (c : ascii) : bool :=
  (48 <=? Z.of_nat (nat_of_ascii c)) && (Z.of_nat (nat_of_ascii c) <=? 57).

Definition is_hex (c : ascii) : bool :=
  is_digit c
  || ((97 <=? Z.of_nat (nat_of_ascii c)) && (Z.of_nat (nat_of_ascii c) <=? 102)).

(** The file that holds one line per identifier of [ids], as the workers
    format them. *)
Definition hash_file (ids : list Z) : string :=
  foldr (fun n rest => Builder.record n +:+ rest) EmptyString ids.

(** The line of an identifier without its newline. *)
Definition record_line (n : Z) : string :=
  Itoa n +:+ ":" +:+ calculateSHA256 (Itoa n).

(** The first identifier of [ids] whose digest is [hash]. *)
Definition first_with_digest (ids : list Z) (hash : string) : option Z :=
  List.find (fun m => String.eqb (calculateSHA256 (Itoa m)) hash) ids.

(** [k] bytes ['0']. *)
Fixpoint zeros (k : nat) : string :=
  match k with
  | O => EmptyString
  | S k' => String "0"%char (zeros k')
  end.

(** The database that holds what the flat file holds: a hash has the row
    of the identifier the file gives for it, and no row otherwise. *)
Definition db_of_file (data : string) (hash : string) : DbVerifier.QueryResult :=
  match FileVerifier.resolve (Scanner.lines data) hash with
  | Some n => DbVerifier.Row n
  | None => DbVerifier.ErrNoRows
  end.

(** The workers that hold a slot of the semaphore: those started and not
    yet past their deferred release. *)
Definition holding (s : Builder.state) : gmap Z Builder.worker_pc :=
  filter (fun kv => kv.2 ≠ Builder.WDone) (Builder.workers s).

(** The bounds the semaphore and the channel impose. *)
Definition bounded (s : Builder.state) : Prop :=
  Builder.semaphore s = size (holding s)
  ∧ (Builder.semaphore s <= Builder.concurrency)%nat
  ∧ (length (Builder.hashChannel s) <= Builder.channelBufferSize)%nat.

(** What has been written is what was received: as long as the writer has
    not failed, the file followed by the buffer holds the lines of the
    token numbers sent first, and the channel holds those of the rest. *)
Definition written (s : Builder.state) : Prop :=
  Builder.err (Builder.writer s) = false →
  ∃ k, (k <= length (Builder.sent s))%nat
       ∧ Builder.hashChannel s = Builder.record <$> skipn k (Builder.sent s)
       ∧ Builder.content (Builder.file s) +:+ Builder.buf (Builder.writer s)
         = hash_file (firstn k (Builder.sent s)).

(** Once the writer goroutine has left its loop the channel is closed and
    empty, and once it has exited without failure the buffer is empty. *)
Definition drained (s : Builder.state) : Prop :=
  (Builder.rpc s ≠ Builder.RRange →
   Builder.hashChannel s = [] ∧ Builder.chan_closed s = true)
  ∧ (Builder.rpc s = Builder.RExited →
     Builder.err (Builder.writer s) = false →
     Builder.buf (Builder.writer s) = EmptyString).

(** The channel is closed exactly from the moment the main goroutine has
    executed [close(hashChannel)]. *)
Definition closing (s : Builder.state) : Prop :=
  Builder.chan_closed s
  = match Builder.mpc s with
    | Builder.MLoop | Builder.MWait | Builder.MClose => false
    | _ => true
    end.






(** ** Inputs used below *)

(** The token for level 0 that carries the digest of ["0"]. *)
Definition token_level0_id0 : string :=
  "000" +:+ calculateSHA256 "0".

(** The token for level 5 that carries the digest of ["100"]. *)
Definition token_level5_id100 : string :=
  "005" +:+ calculateSHA256 "100".

(** A file of one line of 65536 bytes. *)
Definition one_long_line : string :=
  string_of_list_ascii (repeat "a"%char (Z.to_nat Scanner.MaxScanTokenSize)).

(** A schedule for [limit = 0] in which the writer goroutine is not
    scheduled until the call has returned: the worker is started, sends its
    line, releases the semaphore and signals the wait group; the main
    goroutine passes [wg.Wait()], closes the channel and returns through
    its deferred [Flush] and [Close]. *)
Definition early_return : list Builder.goroutine :=
  [Builder.Main; Builder.Main;
   Builder.Worker 0; Builder.Worker 0; Builder.Worker 0;
   Builder.Main; Builder.Main; Builder.Main; Builder.Main].

(** The writer goroutine then receives the line, leaves its loop and
    flushes. *)
Definition late_writer : list Builder.goroutine :=
  [Builder.WriterG; Builder.WriterG; Builder.WriterG].


(** * Properties *)

Example Atoi_5 : Atoi "5" = (5, None).
Proof. reflexivity. Qed.
Example Atoi_empty : Atoi "" = (0, Some ErrSyntax).
Proof. reflexivity. Qed.
Example Atoi_neg : Atoi "-12" = (-12, None).
Proof. reflexivity. Qed.
Example Atoi_bad : Atoi "1a2" = (0, Some ErrSyntax).
Proof. reflexivity. Qed.
Example Atoi_big : Atoi "99999999999999999999" = (maxInt64, Some ErrRange).
Proof. vm_compute. reflexivity. Qed.
Example Itoa_100 : Itoa 100 = "100".
Proof. reflexivity. Qed.
Example Itoa_0 : Itoa 0 = "0".
Proof. reflexivity. Qed.
Example Split_ex : Split "12:ab" ":" = ["12"; "ab"].
Proof. reflexivity. Qed.
Example Split_empty : Split "" ":" = [""].
Proof. reflexivity. Qed.
Example Split_three : Split "a::b" ":" = ["a"; ""; "b"].
Proof. reflexivity. Qed.

Example sha256_0 :
  calculateSHA256 "0"
  = "5feceb66ffc86f38d952786c6d696c79c2dbc239dd4e91b46729d73a27fb57e9".
Proof. vm_compute. reflexivity. Qed.
Example sha256_100 :
  calculateSHA256 "100"
  = "ad57366865126e55649ecb23ae1d48887544976efea46a48eb5d85a6eeb4d306".
Proof. vm_compute. reflexivity. Qed.
Example sha256_empty :
  calculateSHA256 ""
  = "e3b0c44298fc1c149afbf4c8996fb92427ae41e4649b934ca495991b7852b855".
Proof. vm_compute. reflexivity. Qed.

(** ** The quota table *)

Section QuotaTable.

Lemma TokenMap_keys_range (level : Z) :
  is_Some (TokenMap !! level) → 0 <= level <= 78.
Proof.
  intros [q Hq].
  assert (Hall : Forall (fun kv : Z * Z => 0 <= kv.1 <= 78) (map_to_list TokenMap)).
  { apply (bool_decide_unpack _). vm_compute. reflexivity. }
  rewrite Forall_forall in Hall.
  apply (Hall (level, q)). by apply elem_of_map_to_list.
Qed.

Lemma TokenMap_at_outside (level : Z) :
  level < 0 ∨ 78 < level → TokenMap_at level = 0.
Proof.
  intros Hout. unfold TokenMap_at.
  destruct (TokenMap !! level) as [q|] eqn:E; [|reflexivity].
  assert (0 <= level <= 78) by (apply TokenMap_keys_range; eauto). lia.
Qed.

Lemma TokenMap_at_0 : TokenMap_at 0 = 0.
Proof. vm_compute. reflexivity. Qed.

(** Levels as positions in [1..77], for checking the table by evaluation. *)
Definition adjacent_ok (k : nat) : bool :=
  TokenMap_at (Z.of_nat k + 1) <? TokenMap_at (Z.of_nat k).

Lemma adjacent_all : forallb adjacent_ok (seq 1 77) = true.
Proof. vm_compute. reflexivity. Qed.

Lemma TokenMap_step (l : Z) :
  1 <= l <= 77 → TokenMap_at (l + 1) < TokenMap_at l.
Proof.
  intros Hl. pose proof adjacent_all as H.
  rewrite forallb_forall in H.
  specialize (H (Z.to_nat l)).
  unfold adjacent_ok in H. rewrite Z2Nat.id in H by lia.
  apply Z.ltb_lt, H, in_seq. lia.
Qed.

Lemma TokenMap_decreasing_nat (d : nat) (l1 : Z) :
  1 <= l1 → l1 + Z.of_nat (S d) <= 78 →
  TokenMap_at (l1 + Z.of_nat (S d)) < TokenMap_at l1.
Proof.
  induction d as [|d IH]; intros H1 H2.
  - apply TokenMap_step. lia.
  - transitivity (TokenMap_at (l1 + Z.of_nat (S d))).
    + replace (l1 + Z.of_nat (S (S d))) with (l1 + Z.of_nat (S d) + 1) by lia.
      apply TokenMap_step. lia.
    + apply IH; lia.
Qed.

End QuotaTable.

(** C9. The quota table is strictly decreasing on the levels 1 to 78: a
    higher level always has a strictly smaller quota; level 1 holds the
    largest quota, 5000000, and level 78 the smallest one that is not
    zero, 17602. *)
Theorem TokenMap_strictly_decreasing (l1 l2 : Z) :
  1 <= l1 → l1 < l2 → l2 <= 78 →
  TokenMap_at l1 > TokenMap_at l2
  ∧ TokenMap !! 1 = Some 5000000
  ∧ TokenMap !! 78 = Some 17602
  ∧ TokenMap_at l1 <= 5000000
  ∧ 17602 <= TokenMap_at l2
  ∧ (∀ l q, TokenMap !! l = Some q → q ≠ 0 → 17602 <= q <= 5000000).
Proof.
  intros H1 H12 H2.
  assert (Hdec : ∀ a b, 1 <= a → a < b → b <= 78 →
                        TokenMap_at b < TokenMap_at a).
  { intros a b Ha Hab Hb.
    replace b with (a + Z.of_nat (S (Z.to_nat (b - a - 1)))) by lia.
    apply TokenMap_decreasing_nat; lia. }
  assert (E1 : TokenMap_at 1 = 5000000) by (vm_compute; reflexivity).
  assert (E78 : TokenMap_at 78 = 17602) by (vm_compute; reflexivity).
  split; [specialize (Hdec l1 l2); lia|].
  split; [vm_compute; reflexivity|].
  split; [vm_compute; reflexivity|].
  split.
  { destruct (decide (l1 = 1)) as [->|]; [lia|].
    specialize (Hdec 1 l1); lia. }
  split.
  { destruct (decide (l2 = 78)) as [->|]; [lia|].
    specialize (Hdec l2 78); lia. }
  intros l q Hq Hne.
  assert (Hr : 0 <= l <= 78) by (apply TokenMap_keys_range; eauto).
  assert (Eq : TokenMap_at l = q) by (unfold TokenMap_at; by rewrite Hq).
  destruct (decide (l = 0)) as [->|].
  { rewrite TokenMap_at_0 in Eq. lia. }
  split.
  - destruct (decide (l = 78)) as [->|]; [lia|].
    specialize (Hdec l 78); lia.
  - destruct (decide (l = 1)) as [->|]; [lia|].
    specialize (Hdec 1 l); lia.
Qed.

Lemma TokenMap_strictly_decreasing_witness :
  TokenMap_at 5 > TokenMap_at 6
  ∧ TokenMap !! 1 = Some 5000000
  ∧ TokenMap !! 78 = Some 17602
  ∧ TokenMap_at 5 <= 5000000
  ∧ 17602 <= TokenMap_at 6
  ∧ (∀ l q, TokenMap !! l = Some q → q ≠ 0 → 17602 <= q <= 5000000).
Proof. apply (TokenMap_strictly_decreasing 5 6); lia. Defined.

(** ** Verification of one token *)

Section Verification.

Lemma within_quota_true (n level : Z) :
  within_quota n level = true ↔ 0 < n ∧ n <= TokenMap_at level.
Proof.
  unfold within_quota. rewrite andb_true_iff, Z.ltb_lt, Z.leb_le. tauto.
Qed.

Lemma within_quota_quota_0 (n level : Z) :
  TokenMap_at level = 0 → within_quota n level = false.
Proof.
  intros H. apply not_true_is_false. rewrite within_quota_true, H. lia.
Qed.

Lemma slice_to_ok (s : string) (n : nat) :
  (n <= String.length s)%nat → slice_to s n = Some (take n s).
Proof.
  intros H. unfold slice_to.
  destruct (Nat.leb_spec n (String.length s)); [reflexivity | lia].
Qed.

Lemma slice_from_ok (s : string) (n : nat) :
  (n <= String.length s)%nat → slice_from s n = Some (drop n s).
Proof.
  intros H. unfold slice_from.
  destruct (Nat.leb_spec n (String.length s)); [reflexivity | lia].
Qed.

Lemma slice_to_short (s : string) (n : nat) :
  (String.length s < n)%nat → slice_to s n = None.
Proof.
  intros H. unfold slice_to.
  destruct (Nat.leb_spec n (String.length s)); [lia | reflexivity].
Qed.

Lemma file_search_resolve (ls : list string) (hash : string) (level : Z) :
  FileVerifier.search ls hash level
  = (fun n => within_quota n level) <$> FileVerifier.resolve ls hash.
Proof.
  induction ls as [|line rest IH]; [reflexivity|]. simpl.
  destruct (Split line ":") as [|p0 [|p1 [|? ?]]]; try exact IH.
  destruct (String.eqb p1 hash); [reflexivity | exact IH].
Qed.

(** The flat-file verifier on a token of at least three bytes. *)
Lemma file_verifyToken_eq (data tokenHash : string) :
  (3 <= String.length tokenHash)%nat →
  FileVerifier.verifyToken data tokenHash
  = Some (default false
            ((fun n => within_quota n (token_level (take 3 tokenHash)))
               <$> FileVerifier.resolve (Scanner.lines data) (drop 3 tokenHash))).
Proof.
  intros H. unfold FileVerifier.verifyToken.
  rewrite slice_to_ok, slice_from_ok by lia. simpl.
  by rewrite file_search_resolve.
Qed.

(** The database verifier on a token of at least three bytes. *)
Lemma db_verifyToken_eq (db : string → DbVerifier.QueryResult)
    (tokenHash : string) :
  (3 <= String.length tokenHash)%nat →
  DbVerifier.verifyToken db tokenHash
  = Some (if (String.length tokenHash =? 67)%nat then
            match db (drop 3 tokenHash) with
            | DbVerifier.Row n => within_quota n (token_level (take 3 tokenHash))
            | _ => false
            end
          else false).
Proof.
  intros H. unfold DbVerifier.verifyToken.
  rewrite slice_to_ok, slice_from_ok by lia. cbn [mbind option_bind].
  destruct (String.length tokenHash =? 67)%nat; cbn [negb]; [|reflexivity].
  destruct (db (drop 3 tokenHash)); reflexivity.
Qed.

End Verification.

(** C4. A level below 0 or above 78, and level 0, has the effective quota
    0, so a token that carries such a level verifies false in both
    verifiers, whatever identifier its hash resolves to. *)
Theorem level_without_quota_rejected (level : Z) :
  level <= 0 ∨ 78 < level →
  TokenMap_at level = 0
  ∧ (∀ data tokenHash,
       (3 <= String.length tokenHash)%nat →
       token_level (take 3 tokenHash) = level →
       FileVerifier.verifyToken data tokenHash = Some false)
  ∧ (∀ db tokenHash,
       (3 <= String.length tokenHash)%nat →
       token_level (take 3 tokenHash) = level →
       DbVerifier.verifyToken db tokenHash = Some false).
Proof.
  intros Hlevel.
  assert (HQ : TokenMap_at level = 0).
  { destruct (decide (level = 0)) as [->|];
      [apply TokenMap_at_0 | apply TokenMap_at_outside; lia]. }
  split; [exact HQ|]. split.
  - intros data tokenHash Hlen <-. rewrite file_verifyToken_eq by done.
    destruct (FileVerifier.resolve _ _); simpl; [|reflexivity].
    by rewrite within_quota_quota_0.
  - intros db tokenHash Hlen <-. rewrite db_verifyToken_eq by done.
    destruct (_ =? _)%nat; [|reflexivity].
    destruct (db _); try reflexivity. by rewrite within_quota_quota_0.
Qed.

Lemma level_without_quota_rejected_witness :
  TokenMap_at 99 = 0
  ∧ (∀ data tokenHash,
       (3 <= String.length tokenHash)%nat →
       token_level (take 3 tokenHash) = 99 →
       FileVerifier.verifyToken data tokenHash = Some false)
  ∧ (∀ db tokenHash,
       (3 <= String.length tokenHash)%nat →
       token_level (take 3 tokenHash) = 99 →
       DbVerifier.verifyToken db tokenHash = Some false).
Proof. apply (level_without_quota_rejected 99). right. lia. Defined.

Example level_99_positive_identifier :
  FileVerifier.resolve (Scanner.lines "5:abc") "abc" = Some 5
  ∧ FileVerifier.verifyToken "5:abc" "099abc" = Some false
  ∧ FileVerifier.verifyToken "5:abc" "000abc" = Some false
  ∧ FileVerifier.verifyToken "5:abc" "-01abc" = Some false
  ∧ FileVerifier.verifyToken "5:abc" "078abc" = Some true.
Proof. vm_compute. repeat split; reflexivity. Qed.

(** C1, as stated, fails at level 0: the quota of level 0 is 0, the hash of
    the token resolves to the identifier 0, which is that quota, and the
    token verifies false in both verifiers; so the identifier equal to the
    quota does not verify true for every level. *)
Lemma quota_identifier_not_always_valid :
  ¬ (∀ data tokenHash,
       (3 <= String.length tokenHash)%nat →
       FileVerifier.resolve (Scanner.lines data) (drop 3 tokenHash)
       = Some (TokenMap_at (token_level (take 3 tokenHash))) →
       FileVerifier.verifyToken data tokenHash = Some true)
  ∧ ¬ (∀ db tokenHash,
       String.length tokenHash = 67%nat →
       db (drop 3 tokenHash)
       = DbVerifier.Row (TokenMap_at (token_level (take 3 tokenHash))) →
       DbVerifier.verifyToken db tokenHash = Some true).
Proof.
  assert (Elen : String.length token_level0_id0 = 67%nat)
    by (vm_compute; reflexivity).
  split.
  - intros H.
    specialize (H (Builder.record 0) token_level0_id0).
    assert (E : FileVerifier.verifyToken (Builder.record 0) token_level0_id0
                = Some false) by (vm_compute; reflexivity).
    rewrite E in H. enough (Some false = Some true) by discriminate.
    apply H; [rewrite Elen; lia | vm_compute; reflexivity].
  - intros H.
    specialize (H (fun _ => DbVerifier.Row 0) token_level0_id0).
    assert (E : DbVerifier.verifyToken (fun _ => DbVerifier.Row 0)
                  token_level0_id0 = Some false) by (vm_compute; reflexivity).
    rewrite E in H. enough (Some false = Some true) by discriminate.
    apply H; [exact Elen | vm_compute; reflexivity].
Qed.

(** C1, amended.  A token of at least three bytes is decoded by the
    flat-file verifier, a token of exactly 67 bytes by the database
    verifier.  When the hash of a decoded token resolves to the identifier
    [n], the result is true exactly when [0 < n <= quota[level]]; when it
    does not resolve, the result is false.  In particular, for a level with
    quota [Q]: the identifier [Q] verifies true provided [Q > 0], the
    identifier [Q + 1] verifies false, and the identifier 0 verifies
    false. *)
Theorem verification_iff_within_quota (tokenHash : string) :
  (3 <= String.length tokenHash)%nat →
  let level := token_level (take 3 tokenHash) in
  let hash := drop 3 tokenHash in
  let Q := TokenMap_at level in
  (∀ data,
     let found := FileVerifier.resolve (Scanner.lines data) hash in
     let result := FileVerifier.verifyToken data tokenHash in
     (∀ n, found = Some n →
           ∃ b, result = Some b ∧ (b = true ↔ 0 < n ∧ n <= Q))
     ∧ (found = None → result = Some false)
     ∧ (0 < Q → found = Some Q → result = Some true)
     ∧ (found = Some (Q + 1) → result = Some false)
     ∧ (found = Some 0 → result = Some false))
  ∧ (String.length tokenHash = 67%nat →
     ∀ db,
       let result := DbVerifier.verifyToken db tokenHash in
       (∀ n, db hash = DbVerifier.Row n →
             ∃ b, result = Some b ∧ (b = true ↔ 0 < n ∧ n <= Q))
       ∧ (db hash = DbVerifier.ErrNoRows → result = Some false)
       ∧ (0 < Q → db hash = DbVerifier.Row Q → result = Some true)
       ∧ (db hash = DbVerifier.Row (Q + 1) → result = Some false)
       ∧ (db hash = DbVerifier.Row 0 → result = Some false)).
Proof.
  intros Hlen level hash Q.
  assert (HQ : ∀ n, within_quota n level = true ↔ 0 < n ∧ n <= Q)
    by (intros; apply within_quota_true).
  assert (Hfalse : ∀ n, ¬ (0 < n ∧ n <= Q) → within_quota n level = false).
  { intros n Hn. apply not_true_is_false. by rewrite HQ. }
  split.
  - intros data found result. subst result.
    rewrite file_verifyToken_eq by done. fold level hash found.
    repeat split.
    + intros n ->. cbn [fmap option_fmap option_map default].
      eexists; split; [reflexivity | apply HQ].
    + intros ->. reflexivity.
    + intros HposQ ->. cbn [fmap option_fmap option_map default].
      apply (f_equal Some). apply HQ. lia.
    + intros ->. cbn [fmap option_fmap option_map default].
      apply (f_equal Some). apply Hfalse. lia.
    + intros ->. cbn [fmap option_fmap option_map default].
      apply (f_equal Some). apply Hfalse. lia.
  - intros H67 db result. subst result.
    rewrite db_verifyToken_eq by done. fold level hash.
    rewrite H67. change (67 =? 67)%nat with true. cbv iota.
    repeat split.
    + intros n ->. eexists; split; [reflexivity | apply HQ].
    + intros ->. reflexivity.
    + intros HposQ ->. apply (f_equal Some). apply HQ. lia.
    + intros ->. apply (f_equal Some). apply Hfalse. lia.
    + intros ->. apply (f_equal Some). apply Hfalse. lia.
Qed.

Lemma verification_iff_within_quota_witness :
  let tokenHash := token_level5_id100 in
  let level := token_level (take 3 tokenHash) in
  let hash := drop 3 tokenHash in
  let Q := TokenMap_at level in
  (∀ data,
     let found := FileVerifier.resolve (Scanner.lines data) hash in
     let result := FileVerifier.verifyToken data tokenHash in
     (∀ n, found = Some n →
           ∃ b, result = Some b ∧ (b = true ↔ 0 < n ∧ n <= Q))
     ∧ (found = None → result = Some false)
     ∧ (0 < Q → found = Some Q → result = Some true)
     ∧ (found = Some (Q + 1) → result = Some false)
     ∧ (found = Some 0 → result = Some false))
  ∧ (String.length tokenHash = 67%nat →
     ∀ db,
       let result := DbVerifier.verifyToken db tokenHash in
       (∀ n, db hash = DbVerifier.Row n →
             ∃ b, result = Some b ∧ (b = true ↔ 0 < n ∧ n <= Q))
       ∧ (db hash = DbVerifier.ErrNoRows → result = Some false)
       ∧ (0 < Q → db hash = DbVerifier.Row Q → result = Some true)
       ∧ (db hash = DbVerifier.Row (Q + 1) → result = Some false)
       ∧ (db hash = DbVerifier.Row 0 → result = Some false)).
Proof.
  apply (verification_iff_within_quota token_level5_id100).
  vm_compute. lia.
Defined.

Example verify_level5_examples :
  String.length token_level5_id100 = 67%nat
  ∧ token_level (take 3 token_level5_id100) = 5
  ∧ TokenMap_at 5 = 2079134
  ∧ FileVerifier.verifyToken (Builder.record 100) token_level5_id100
    = Some true
  ∧ FileVerifier.verifyToken
      ("2100000:" +:+ calculateSHA256 "100" +:+ Builder.newline)
      token_level5_id100
    = Some false
  ∧ FileVerifier.verifyToken (Builder.record 101) token_level5_id100
    = Some false.
Proof. vm_compute. repeat split; reflexivity. Qed.

(** ** Tokens shorter than the level prefix *)

(** C2. The two-byte token ["ab"] does not verify to a boolean: the slice
    [tokenHash[:3]], taken before any length check, panics in both
    verifiers, whatever the index holds. *)
Theorem short_token_panics (data : string)
    (db : string → DbVerifier.QueryResult) :
  FileVerifier.verifyToken data "ab" = None
  ∧ DbVerifier.verifyToken db "ab" = None
  ∧ FileVerifier.verifyToken data "" = None
  ∧ DbVerifier.verifyToken db "" = None.
Proof. repeat split; reflexivity. Qed.

(** Every token shorter than three bytes behaves that way. *)
Lemma token_below_three_bytes_panics (data : string)
    (db : string → DbVerifier.QueryResult) (tokenHash : string) :
  (String.length tokenHash < 3)%nat →
  FileVerifier.verifyToken data tokenHash = None
  ∧ DbVerifier.verifyToken db tokenHash = None.
Proof.
  intros H. unfold FileVerifier.verifyToken, DbVerifier.verifyToken.
  by rewrite slice_to_short.
Qed.

(** C3. A request whose only token is the malformed ["ab"] ends in a
    panic of the handler instead of a response with [false] for it, in
    both programs; and the flat-file handler, which has no length check,
    answers [true] for the six-byte token ["001abc"] when the file has the
    line ["5:abc"]. *)
Theorem malformed_token_not_rejected (data : string)
    (db : string → DbVerifier.QueryResult) :
  FileVerifier.verifyTokensHandler (Some data) (Some ["ab"]) = Panicked
  ∧ DbVerifier.verifyTokensHandler db (Some ["ab"]) ["ab"] = Panicked
  ∧ FileVerifier.verifyTokensHandler (Some "5:abc") (Some ["001abc"])
    = OK {["001abc" := true]}.
Proof. repeat split; vm_compute; reflexivity. Qed.

(** The database handler does answer [false] for a token of a wrong
    length that has at least three bytes, and for a level prefix that is
    not a number. *)
Lemma db_malformed_token_false (db : string → DbVerifier.QueryResult)
    (tokenHash : string) :
  (3 <= String.length tokenHash)%nat →
  String.length tokenHash ≠ 67%nat
  ∨ (Atoi (TrimLeft0 (take 3 tokenHash))).2 = Some ErrSyntax →
  DbVerifier.verifyToken db tokenHash = Some false.
Proof.
  intros H3 Hbad. rewrite db_verifyToken_eq by done.
  destruct (Nat.eqb_spec (String.length tokenHash) 67) as [E|E];
    [|reflexivity].
  destruct Hbad as [Hbad|Hbad]; [done|].
  assert (Hlevel : token_level (take 3 tokenHash) = 0).
  { unfold token_level. revert Hbad. unfold Atoi.
    destruct (TrimLeft0 _) as [|c r]; [reflexivity|].
    destruct (ParseUint _) as [un [[]|]]; [reflexivity| |];
      repeat case_match; simpl; congruence. }
  destruct (db _); try reflexivity.
  apply (f_equal Some), within_quota_quota_0. rewrite Hlevel.
  apply TokenMap_at_0.
Qed.

(** ** Batches *)

Section Batches.

(** Both handlers fill [results] the same way; the proofs share their
    steps. *)
Ltac loop_step IH t rest m v :=
  let b := fresh "b" in
  let Hb := fresh "Hb" in
  let r := fresh "r" in
  let Hr := fresh "Hr" in
  let Hk := fresh "Hk" in
  intros [[b Hb] Hrest]%Forall_cons; cbn; rewrite Hb; cbn;
  destruct (IH (<[t:=b]> m) Hrest) as (r & Hr & Hk);
  exists r; split; [exact Hr|];
  intros k; rewrite Hk;
  destruct (decide (k ∈ rest)) as [Hin|Hnin];
  [ rewrite decide_True by (by right); reflexivity
  | destruct (decide (k = t)) as [->|Hne];
    [ rewrite decide_True by (by left); by rewrite lookup_insert_eq
    | rewrite decide_False by (by intros [?|?]%elem_of_cons);
      by rewrite lookup_insert_ne ] ].

Lemma file_verifyLoop_spec (data : string) (input : list string)
    (m : gmap string bool) :
  Forall (fun t => is_Some (FileVerifier.verifyToken data t)) input →
  ∃ r, FileVerifier.verifyLoop data input m = Some r
       ∧ ∀ k, r !! k = if decide (k ∈ input)
                       then FileVerifier.verifyToken data k else m !! k.
Proof.
  revert m. induction input as [|t rest IH]; intros m.
  - intros _. exists m. split; [reflexivity|]. intros k.
    by rewrite decide_False by (apply not_elem_of_nil).
  - loop_step IH t rest m (FileVerifier.verifyToken data).
Qed.

Lemma db_runTasks_spec (db : string → DbVerifier.QueryResult)
    (sched : list string) (m : gmap string bool) :
  Forall (fun t => is_Some (DbVerifier.verifyToken db t)) sched →
  ∃ r, DbVerifier.runTasks db sched m = Some r
       ∧ ∀ k, r !! k = if decide (k ∈ sched)
                       then DbVerifier.verifyToken db k else m !! k.
Proof.
  revert m. induction sched as [|t rest IH]; intros m.
  - intros _. exists m. split; [reflexivity|]. intros k.
    by rewrite decide_False by (apply not_elem_of_nil).
  - loop_step IH t rest m (DbVerifier.verifyToken db).
Qed.

(** X8. The flat-file handler answers a batch whose tokens all have at
    least three bytes with one entry per distinct token, keyed by the
    token and holding the value computed for it. *)
Lemma file_handler_results (data : string) (input : list string) :
  Forall (fun t => (3 <= String.length t)%nat) input →
  ∃ results,
    FileVerifier.verifyTokensHandler (Some data) (Some input) = OK results
    ∧ dom results = list_to_set input
    ∧ ∀ t, t ∈ input → results !! t = FileVerifier.verifyToken data t.
Proof.
  intros Hlen.
  destruct (file_verifyLoop_spec data input ∅) as (r & Hr & Hk).
  { eapply Forall_impl; [exact Hlen|]. intros t Ht.
    rewrite file_verifyToken_eq by done. eauto. }
  exists r. unfold FileVerifier.verifyTokensHandler. rewrite Hr.
  split; [reflexivity|]. split.
  - apply set_eq. intros k. rewrite elem_of_dom, Hk, elem_of_list_to_set.
    destruct (decide (k ∈ input)) as [Hin|Hnin].
    + rewrite Forall_forall in Hlen.
      rewrite file_verifyToken_eq by (by apply Hlen). split; eauto.
    + rewrite lookup_empty. split; [by intros [? ?] | done].
  - intros t Ht. by rewrite Hk, decide_True.
Qed.

(** The goroutines of the database handler may write in any order: the
    response does not depend on the schedule. *)
Lemma db_handler_schedule_independent (db : string → DbVerifier.QueryResult)
    (input sched : list string) :
  Forall (fun t => (3 <= String.length t)%nat) input →
  sched ≡ₚ input →
  DbVerifier.verifyTokensHandler db (Some input) sched
  = DbVerifier.verifyTokensHandler db (Some input) input.
Proof.
  intros Hlen Hperm.
  assert (Hok : ∀ l, l ≡ₚ input →
            Forall (fun t => is_Some (DbVerifier.verifyToken db t)) l).
  { intros l Hl. rewrite Hl. eapply Forall_impl; [exact Hlen|].
    intros t Ht. rewrite db_verifyToken_eq by done. eauto. }
  destruct (db_runTasks_spec db sched ∅ (Hok _ Hperm)) as (r1 & Hr1 & Hk1).
  destruct (db_runTasks_spec db input ∅ (Hok _ (reflexivity _)))
    as (r2 & Hr2 & Hk2).
  unfold DbVerifier.verifyTokensHandler. rewrite Hr1, Hr2. f_equal.
  apply map_eq. intros k. rewrite Hk1, Hk2.
  destruct (decide (k ∈ sched)) as [Hin|Hnin].
  - rewrite decide_True; [done | by rewrite <- Hperm].
  - rewrite decide_False; [done | by rewrite <- Hperm].
Qed.

End Batches.

(** C8. A batch that holds the two-byte token ["ab"] gets no result set at
    all: the handler panics at [tokenHash[:3]], so neither ["ab"] nor the
    well-formed token next to it receives its entry, in both programs. *)
Theorem batch_with_short_token_has_no_result (data : string)
    (db : string → DbVerifier.QueryResult) :
  FileVerifier.verifyTokensHandler (Some data)
    (Some [token_level5_id100; "ab"]) = Panicked
  ∧ DbVerifier.verifyTokensHandler db
      (Some [token_level5_id100; "ab"]) [token_level5_id100; "ab"] = Panicked
  ∧ DbVerifier.verifyTokensHandler db
      (Some [token_level5_id100; "ab"]) ["ab"; token_level5_id100] = Panicked.
Proof.
  assert (E : String.length token_level5_id100 = 67%nat)
    by (vm_compute; reflexivity).
  assert (E3 : (3 <= String.length token_level5_id100)%nat)
    by (rewrite E; lia).
  unfold FileVerifier.verifyTokensHandler, DbVerifier.verifyTokensHandler.
  cbn [FileVerifier.verifyLoop DbVerifier.runTasks].
  rewrite (file_verifyToken_eq data token_level5_id100 E3).
  rewrite (db_verifyToken_eq db token_level5_id100 E3).
  repeat split.
Qed.

(** ** The content hasher *)

Section Hasher.

Lemma block1_length (hs p : list Z) :
  length hs = 8%nat → length (Sha256.block1 hs p) = 8%nat.
Proof.
  intros H. unfold Sha256.block1.
  destruct (fold_left Sha256.round _ _) as [[[[[[[a b] c] d] e] f] g] hh].
  rewrite length_map, length_combine, H. reflexivity.
Qed.

Lemma block_length (n : nat) (hs p : list Z) :
  length hs = 8%nat → length (Sha256.block n hs p) = 8%nat.
Proof.
  revert hs p. induction n as [|n IH]; intros hs p H; [exact H|].
  cbn [Sha256.block]. apply IH, block1_length, H.
Qed.

Lemma Write_length (d : Sha256.digest) (p : list Z) :
  length (Sha256.h d) = 8%nat →
  length (Sha256.h (Sha256.Write d p)) = 8%nat.
Proof.
  intros H. unfold Sha256.Write. cbn [Sha256.h].
  apply block_length. case_match; [by apply block1_length | exact H].
Qed.

Lemma be_bytes_length (w : nat) (v : Z) : length (Sha256.be_bytes w v) = w.
Proof. induction w as [|w IH]; [reflexivity|]. cbn. by rewrite IH. Qed.

Lemma checkSum_length (d : Sha256.digest) :
  length (Sha256.h d) = 8%nat → length (Sha256.checkSum d) = 32%nat.
Proof.
  intros H. unfold Sha256.checkSum.
  pose proof (Write_length d
    (firstn (Z.to_nat (if Sha256.len d `mod` 64 <? 56
                       then 56 - Sha256.len d `mod` 64
                       else 64 + 56 - Sha256.len d `mod` 64))
            (128 :: repeat 0 (64 + 8))
     ++ Sha256.be_bytes 8 (Z.shiftl (Sha256.len d) 3 `mod` 2 ^ 64)) H) as HW.
  revert HW. generalize (Sha256.h (Sha256.Write d
    (firstn (Z.to_nat (if Sha256.len d `mod` 64 <? 56
                       then 56 - Sha256.len d `mod` 64
                       else 64 + 56 - Sha256.len d `mod` 64))
            (128 :: repeat 0 (64 + 8))
     ++ Sha256.be_bytes 8 (Z.shiftl (Sha256.len d) 3 `mod` 2 ^ 64)))).
  intros hs Hhs.
  do 9 (destruct hs as [|? hs]; try discriminate Hhs).
  cbn [map concat]. rewrite !length_app, !be_bytes_length. reflexivity.
Qed.

Lemma EncodeToString_length (b : list Z) :
  String.length (EncodeToString b) = (2 * length b)%nat.
Proof.
  induction b as [|v r IH]; [reflexivity|].
  cbn [EncodeToString String.length length]. rewrite IH. lia.
Qed.

(** The call allocates one hasher object, fills it, and reads the digest
    from it; nothing else in the heap is involved. *)
Lemma calculateSHA256_in_eq (input : string) (heap : hashers) :
  calculateSHA256_in input heap
  = (EncodeToString
       (Sha256.Sum (Sha256.Write Sha256.New (bytes_of_string input)) []),
     heap ++ [Sha256.Write Sha256.New (bytes_of_string input)]).
Proof.
  unfold calculateSHA256_in.
  assert (E : alter (fun d => Sha256.Write d (bytes_of_string input))
                (length heap) (heap ++ [Sha256.New])
              = heap ++ [Sha256.Write Sha256.New (bytes_of_string input)]).
  { replace (length heap) with (length heap + 0)%nat by lia.
    by rewrite alter_app_r. }
  rewrite E, lookup_app_r by lia.
  by rewrite Nat.sub_diag.
Qed.

End Hasher.

(** C7. The content hasher is a function of its input alone: whatever
    hasher objects the process holds, an invocation returns the same
    digest; a second invocation after the first returns it again; the
    objects that existed before the call are left as they were; and every
    input has a digest, of 64 characters. *)
Theorem calculateSHA256_deterministic (input : string)
    (heap1 heap2 : hashers) :
  (calculateSHA256_in input heap1).1 = (calculateSHA256_in input heap2).1
  ∧ (calculateSHA256_in input (calculateSHA256_in input heap1).2).1
    = (calculateSHA256_in input heap1).1
  ∧ (calculateSHA256_in input heap1).1 = calculateSHA256 input
  ∧ (∀ r d, heap1 !! r = Some d →
            (calculateSHA256_in input heap1).2 !! r = Some d)
  ∧ String.length (calculateSHA256 input) = 64%nat.
Proof.
  unfold calculateSHA256. rewrite !calculateSHA256_in_eq. cbn [fst snd].
  repeat split.
  - intros r d Hr. by apply lookup_app_l_Some.
  - rewrite EncodeToString_length. unfold Sha256.Sum. cbn [app].
    rewrite checkSum_length; [reflexivity|].
    by apply Write_length.
Qed.

(** For identifiers: the digest of an identifier is that of its decimal
    form, the same in every invocation. *)
Example hash_identifier_stable (n : Z) (heap1 heap2 : hashers) :
  (calculateSHA256_in (Itoa n) heap1).1 = (calculateSHA256_in (Itoa n) heap2).1.
Proof. by rewrite !calculateSHA256_in_eq. Qed.

(** ** Lookup by hash in the flat file *)

Section Lookup.

Lemma matches_spec (hash line : string) :
  HashFile.matches hash line = true ↔ ∃ p0, Split line ":" = [p0; hash].
Proof.
  unfold HashFile.matches.
  destruct (Split line ":") as [|p0 [|p1 [|? ?]]];
    try (split; [discriminate | intros [? ?]; discriminate]).
  destruct (String.eqb_spec p1 hash) as [->|Hne].
  - split; eauto.
  - split; [discriminate|]. intros [q0 Hq0]. congruence.
Qed.

Lemma first_match_first (ls : list string) (hash line : string) :
  HashFile.first_match ls hash = Some line →
  ∃ pre post, ls = pre ++ line :: post
              ∧ HashFile.matches hash line = true
              ∧ Forall (fun l => HashFile.matches hash l = false) pre.
Proof.
  unfold HashFile.first_match.
  induction ls as [|l rest IH]; [discriminate|]. cbn [find].
  destruct (HashFile.matches hash l) eqn:E.
  - intros [= ->]. exists [], rest. by repeat split.
  - intros (pre & post & -> & Hm & Hpre)%IH.
    exists (l :: pre), post. repeat split; [done|]. by constructor.
Qed.

Lemma first_match_none (ls : list string) (hash : string) :
  HashFile.first_match ls hash = None ↔
  Forall (fun l => HashFile.matches hash l = false) ls.
Proof.
  unfold HashFile.first_match. induction ls as [|l rest IH]; cbn [find].
  - split; [constructor | reflexivity].
  - destruct (HashFile.matches hash l) eqn:E.
    + split; [discriminate | intros [? _]%Forall_cons; congruence].
    + rewrite IH. split; [by constructor | by intros [_ ?]%Forall_cons].
Qed.

Lemma search_cons (line : string) (rest : list string) (hash : string) :
  HashFile.search (line :: rest) hash
  = if HashFile.matches hash line then
      Some match Atoi (HashFile.id_field line) with
           | (tokenNumber, None) => (tokenNumber, None)
           | (_, Some _) => (0, Some HashFile.ErrInvalidTokenNumber)
           end
    else HashFile.search rest hash.
Proof.
  unfold HashFile.matches, HashFile.id_field. cbn [HashFile.search].
  destruct (Split line ":") as [|p0 [|p1 [|? ?]]]; try reflexivity.
  destruct (String.eqb p1 hash); [|reflexivity].
  by destruct (Atoi p0) as [n [e|]].
Qed.

(** The scanning loop returns at the first matching line and nowhere
    else. *)
Lemma search_first_match (ls : list string) (hash : string) :
  HashFile.search ls hash
  = (fun line =>
       match Atoi (HashFile.id_field line) with
       | (tokenNumber, None) => (tokenNumber, None)
       | (_, Some _) => (0, Some HashFile.ErrInvalidTokenNumber)
       end) <$> HashFile.first_match ls hash.
Proof.
  unfold HashFile.first_match.
  induction ls as [|line rest IH]; [reflexivity|].
  rewrite search_cons. cbn [find].
  destruct (HashFile.matches hash line); [reflexivity | exact IH].
Qed.

End Lookup.

(** C10, as stated, fails in two places.  In the file with the lines
    ["x:h"] and ["7:h"] the first line whose second field is ["h"] has no
    identifier to parse, and the lookup returns an error instead of an
    identifier (the later line is not consulted).  In a file whose single
    line is too long for the scanner no line matches, and the error is the
    scanning error, not the not-found error. *)
Lemma lookup_first_match_may_fail :
  ¬ (∀ data hash line,
       HashFile.first_match (Scanner.lines data) hash = Some line →
       HashFile.getTokenByHashFromFile hash (Some data)
       = ((Atoi (HashFile.id_field line)).1, None))
  ∧ ¬ (∀ data hash,
       HashFile.first_match (Scanner.lines data) hash = None →
       HashFile.getTokenByHashFromFile hash (Some data)
       = (0, Some HashFile.ErrHashNotFound)).
Proof.
  split.
  - intros H.
    specialize (H ("x:h" +:+ Builder.newline +:+ "7:h" +:+ Builder.newline)
                  "h" "x:h" eq_refl).
    vm_compute in H. discriminate H.
  - intros H. specialize (H one_long_line "h").
    assert (E : HashFile.getTokenByHashFromFile "h" (Some one_long_line)
                = (0, Some HashFile.ErrScanningFile))
      by (vm_compute; reflexivity).
    rewrite E in H. enough ((0, Some HashFile.ErrScanningFile)
                            = (0, Some HashFile.ErrHashNotFound)) by discriminate.
    apply H. vm_compute. reflexivity.
Qed.

(** C10, amended.  The lookup by hash goes by the first line, in file
    order, that splits into exactly two colon-separated fields with the
    second equal to the queried hash: it returns the identifier parsed from
    the first field of that line when that field is an integer, and an
    invalid-token-number error with identifier 0 when it is not.  Lines
    that do not split into exactly two fields are skipped.  When no line
    matches, identifier 0 comes with the not-found error if the file was
    scanned to its end, with the scanning error otherwise, and with the
    opening error when the file cannot be opened. *)
Theorem getTokenByHashFromFile_first_match (data hash : string) :
  HashFile.getTokenByHashFromFile hash (Some data)
  = match HashFile.first_match (Scanner.lines data) hash with
    | Some line =>
        match Atoi (HashFile.id_field line) with
        | (tokenNumber, None) => (tokenNumber, None)
        | (_, Some _) => (0, Some HashFile.ErrInvalidTokenNumber)
        end
    | None =>
        (0, Some (if Scanner.Err data then HashFile.ErrScanningFile
                  else HashFile.ErrHashNotFound))
    end
  ∧ (∀ line,
       HashFile.first_match (Scanner.lines data) hash = Some line →
       ∃ pre post p0,
         Scanner.lines data = pre ++ line :: post
         ∧ Split line ":" = [p0; hash]
         ∧ HashFile.id_field line = p0
         ∧ Forall (fun l => ∀ q0, Split l ":" ≠ [q0; hash]) pre)
  ∧ (∀ line rest,
       length (Split line ":") ≠ 2%nat →
       HashFile.search (line :: rest) hash = HashFile.search rest hash)
  ∧ HashFile.getTokenByHashFromFile hash None
    = (0, Some HashFile.ErrOpeningFile).
Proof.
  split; [|split; [|split]].
  - unfold HashFile.getTokenByHashFromFile. rewrite search_first_match.
    destruct (HashFile.first_match _ _); cbn; [reflexivity|].
    by destruct (Scanner.Err data).
  - intros line (pre & post & Hls & Hm & Hpre)%first_match_first.
    apply matches_spec in Hm as [p0 Hp0].
    exists pre, post, p0. repeat split; try done.
    + unfold HashFile.id_field. by rewrite Hp0.
    + eapply Forall_impl; [exact Hpre|]. intros l Hl q0 Hq0.
      assert (HashFile.matches hash l = true) by (apply matches_spec; eauto).
      congruence.
  - intros line rest Hlen. cbn [HashFile.search].
    by destruct (Split line ":") as [|p0 [|p1 [|? ?]]].
  - reflexivity.
Qed.

Example lookup_examples :
  HashFile.getTokenByHashFromFile (calculateSHA256 "100")
    (Some (Builder.record 99 +:+ Builder.record 100 +:+ Builder.record 101))
  = (100, None)
  ∧ HashFile.getTokenByHashFromFile "h" (Some "a:b:h")
    = (0, Some HashFile.ErrHashNotFound)
  ∧ HashFile.getTokenByHashFromFile "h" (Some "3:h") = (3, None).
Proof. vm_compute. repeat split; reflexivity. Qed.

(** ** The build *)

Section BuildInvariant.

Variable limit : Z.

Local Abbreviation Inv := (Builder.Inv limit).

Lemma Inv_init : Inv Builder.init.
Proof.
  split; cbn.
  - lia.
  - done.
  - intros j pc. by rewrite lookup_empty.
  - constructor.
  - intros j. rewrite elem_of_nil. intuition lia.
  - by rewrite map_size_empty.
  - done.
  - by exists 0%nat.
Qed.

Lemma Inv_step_main (s s' : Builder.state) :
  Inv s → Builder.step_main limit s = Some s' → Inv s'.
Proof.
  intros [Hi Hdone Hw Hnd Hs Hwg Hwait Hch]. unfold Builder.step_main.
  destruct (Builder.mpc s) eqn:Hpc.
  - destruct (Z.leb_spec (Builder.i s) limit) as [Hle|Hgt].
    + case_match; [|discriminate]. intros [= <-].
      assert (Hfresh : Builder.workers s !! Builder.i s = None).
      { destruct (Builder.workers s !! Builder.i s) as [pc|] eqn:E;
          [|done]. apply Hw in E. lia. }
      split; cbn; try done.
      * lia.
      * intros j pc. rewrite lookup_insert. case_decide.
        -- intros _. subst j. lia.
        -- intros Hj%Hw. lia.
      * intros j. rewrite Hs, lookup_insert. case_decide.
        -- subst j. split; [lia | intros [_ ?]; done].
        -- split; (intros [? ?]; split; [lia | done]).
      * rewrite map_size_insert_None by done. lia.
    + intros [= <-]. split; cbn; try done.
      * intros _. lia.
  - case_match; [|discriminate]. intros [= <-].
    split; cbn; try done.
    + intros _. apply Hdone. congruence.
    + intros _ _. apply map_size_empty_inv. lia.
  - intros [= <-]. split; cbn; try done.
    + intros _. apply Hdone. congruence.
    + intros _ _. apply Hwait; congruence.
  - destruct (Builder.Flush _ _) as [w f]. intros [= <-].
    split; cbn; try done.
    + intros _. apply Hdone. congruence.
    + intros _ _. apply Hwait; congruence.
  - intros [= <-]. split; cbn; try done.
    + intros _. apply Hdone. congruence.
    + intros _ _. apply Hwait; congruence.
  - discriminate.
Qed.

Lemma Inv_step_worker (n : Z) (s s' : Builder.state) :
  Inv s → Builder.step_worker n s = Some s' → Inv s'.
Proof.
  intros [Hi Hdone Hw Hnd Hs Hwg Hwait Hch]. unfold Builder.step_worker.
  destruct (Builder.workers s !! n) as [pc|] eqn:Hn; [|discriminate].
  assert (Hlive : Builder.workers s ≠ ∅).
  { intros E. rewrite E, lookup_empty in Hn. discriminate. }
  pose proof (Hw _ _ Hn) as Hrange.
  destruct pc.
  - case_match; [|discriminate]. intros [= <-].
    split; cbn; try done.
    + intros j pc. rewrite lookup_insert. case_decide.
      * intros _. by subst j.
      * apply Hw.
    + apply NoDup_app. split; [done|]. split; [|apply NoDup_singleton].
      intros j Hj ->%list_elem_of_singleton. apply Hs in Hj as [_ Hj]. done.
    + intros j. rewrite elem_of_app, list_elem_of_singleton, Hs, lookup_insert.
      case_decide.
      * subst j. split; [intros _; split; [lia | done] | by right].
      * split; [intros [?|?]; [done | by subst] | by left].
    + rewrite map_size_insert_Some by eauto. done.
    + intros H1 H2. by destruct (Hlive (Hwait H1 H2)).
    + destruct Hch as (k & Hk & ->). exists k.
      rewrite length_app, drop_app_le, fmap_app by done.
      split; [lia | done].
  - intros [= <-]. split; cbn; try done.
    + intros j pc. rewrite lookup_insert. case_decide.
      * intros _. by subst j.
      * apply Hw.
    + intros j. rewrite Hs, lookup_insert. case_decide.
      * subst j. rewrite Hn. split; (intros [? _]; split; [lia | done]).
      * done.
    + rewrite map_size_insert_Some by eauto. done.
    + intros H1 H2. by destruct (Hlive (Hwait H1 H2)).
  - intros [= <-]. split; cbn; try done.
    + intros j pc. rewrite lookup_delete. case_decide; [done | apply Hw].
    + intros j. rewrite Hs, lookup_delete. case_decide.
      * subst j. rewrite Hn. split; (intros [? _]; split; [lia | done]).
      * done.
    + rewrite map_size_delete_Some by eauto.
      assert (size (Builder.workers s) ≠ 0%nat).
      { intros E. by apply map_size_empty_inv in E. }
      lia.
    + intros H1 H2. by destruct (Hlive (Hwait H1 H2)).
Qed.

Lemma Inv_step_writer (s s' : Builder.state) :
  Inv s → Builder.step_writer s = Some s' → Inv s'.
Proof.
  intros [Hi Hdone Hw Hnd Hs Hwg Hwait Hch]. unfold Builder.step_writer.
  destruct (Builder.rpc s).
  - destruct (Builder.hashChannel s) as [|hash rest] eqn:Hc.
    + case_match; [|discriminate]. intros [= <-]. by split.
    + destruct (Builder.WriteString _ _ _) as [w f]. intros [= <-].
      split; cbn; try done.
      destruct Hch as (k & Hk & Hch). exists (S k).
      destruct (skipn k (Builder.sent s)) as [|x tl] eqn:Hd; [done|].
      injection Hch as _ ->.
      assert (Hlen : length (skipn k (Builder.sent s)) = S (length tl))
        by (by rewrite Hd).
      rewrite length_drop in Hlen. split; [lia|].
      replace (S k) with (k + 1)%nat by lia.
      by rewrite <- drop_drop, Hd.
  - destruct (Builder.Flush _ _) as [w f]. intros [= <-]. by split.
  - discriminate.
Qed.

Lemma Inv_run (sched : list Builder.goroutine) (s s' : Builder.state) :
  Inv s → Builder.run limit sched s = Some s' → Inv s'.
Proof.
  revert s. induction sched as [|g rest IH]; intros s HI; cbn.
  - by intros [= <-].
  - destruct (Builder.step limit g s) as [s1|] eqn:E; [|discriminate].
    cbn. apply IH. destruct g; cbn in E.
    + by eapply Inv_step_main.
    + by eapply Inv_step_worker.
    + by eapply Inv_step_writer.
Qed.

(** Under every schedule, once the call has returned, the workers have
    sent the line of each identifier from 0 through [limit], and of no
    other, exactly once. *)
Lemma build_sends_each_identifier_once (sched : list Builder.goroutine)
    (s : Builder.state) :
  Builder.run limit sched Builder.init = Some s →
  Builder.returned s = true →
  NoDup (Builder.sent s)
  ∧ (∀ j, j ∈ Builder.sent s ↔ 0 <= j <= limit)
  ∧ Builder.workers s = ∅.
Proof.
  intros Hrun Hret. apply (Inv_run _ _ _ Inv_init) in Hrun.
  destruct Hrun as [Hi Hdone Hw Hnd Hs Hwg Hwait Hch].
  unfold Builder.returned in Hret.
  destruct (Builder.mpc s) eqn:Hpc; try discriminate.
  assert (Hempty : Builder.workers s = ∅) by (by apply Hwait).
  assert (Hi' : Builder.i s = Z.max 0 (limit + 1)) by (by apply Hdone).
  split; [done|]. split; [|done].
  intros j. rewrite Hs, Hempty, lookup_empty, Hi'.
  split; [intros [? _]; lia | intros ?; split; [lia | done]].
Qed.

End BuildInvariant.

(** C6. The call can return to its caller while the queue still holds a
    line and nothing has been flushed: with [limit = 0], under the schedule
    [early_return], the call has returned, the channel still holds the line
    of identifier 0, the writer goroutine is still in its loop and the
    file, already closed, is empty. *)
Theorem build_returns_before_queue_drained :
  ∃ s, Builder.run 0 early_return Builder.init = Some s
       ∧ Builder.returned s = true
       ∧ Builder.workers s = ∅
       ∧ Builder.hashChannel s = [Builder.record 0]
       ∧ Builder.rpc s = Builder.RRange
       ∧ Builder.file s = Builder.mkFile "" true.
Proof. eexists. vm_compute. repeat split; reflexivity. Qed.

(** C5. A completed build can leave fewer than [limit + 1] entries: with
    [limit = 0], under the schedule [early_return ++ late_writer], every
    goroutine has finished, the one line was sent, and the index holds no
    entry, because the writer goroutine wrote after the file was closed. *)
Theorem build_can_lose_entries :
  ∃ s, Builder.run 0 (early_return ++ late_writer) Builder.init = Some s
       ∧ Builder.quiescent s = true
       ∧ Builder.sent s = [0]
       ∧ Builder.hashChannel s = []
       ∧ Builder.index s = []
       ∧ Builder.err (Builder.writer s) = true.
Proof. eexists. vm_compute. repeat split; reflexivity. Qed.

(** Under a schedule that lets the writer goroutine drain the channel and
    flush before the call returns, the index has its entry. *)
Example build_drained_first :
  Builder.index
  <$> Builder.run 0
        [Builder.Main; Builder.Main; Builder.Worker 0; Builder.Worker 0;
         Builder.Worker 0; Builder.Main; Builder.Main;
         Builder.WriterG; Builder.WriterG; Builder.WriterG;
         Builder.Main; Builder.Main]
        Builder.init
  = Some ["0:5feceb66ffc86f38d952786c6d696c79c2dbc239dd4e91b46729d73a27fb57e9"].
Proof. vm_compute. reflexivity. Qed.

(** * Further properties *)

(** ** Decimal conversions *)

Section Decimal.

Import Decimal.

Lemma maxUint64_val : maxUint64 = 18446744073709551615.
Proof. reflexivity. Qed.

Lemma maxInt64_val : maxInt64 = 9223372036854775807.
Proof. reflexivity. Qed.

Lemma minInt64_val : minInt64 = -9223372036854775808.
Proof. reflexivity. Qed.

Lemma string_of_uint_length (d : uint) :
  String.length (NilEmpty.string_of_uint d) = nb_digits d.
Proof. induction d; cbn; congruence. Qed.

Lemma string_of_uint_digits (d : uint) :
  all_chars is_digit (NilEmpty.string_of_uint d) = true.
Proof. induction d; cbn [NilEmpty.string_of_uint all_chars]; try done. Qed.

(** The accumulator of the conversion never shrinks; each further digit at
    least doubles it. *)
Lemma of_uint_acc_grows (d : uint) (acc : positive) :
  Z.pos acc * 2 ^ Z.of_nat (nb_digits d) <= Z.pos (Pos.of_uint_acc d acc).
Proof.
  revert acc. induction d; intros acc;
    cbn [Pos.of_uint_acc nb_digits]; [lia|..];
    rewrite Nat2Z.inj_succ, Z.pow_succ_r by lia;
    (etransitivity; [|apply IHd]);
    assert (0 < 2 ^ Z.of_nat (nb_digits d)) by (apply Z.pow_pos_nonneg; lia);
    nia.
Qed.

Lemma ParseUint_loop_step (c : ascii) (r : string) (n d : Z) :
  digit_val c = Some d → 0 <= d <= 9 → 0 <= n →
  n * 10 + d <= maxUint64 →
  ParseUint_loop (String c r) n = ParseUint_loop r (n * 10 + d).
Proof.
  intros Hc Hd Hn Hmax. cbn [ParseUint_loop]. rewrite Hc.
  rewrite maxUint64_val in *.
  change (18446744073709551615 / 10 + 1) with 1844674407370955162.
  destruct (Z.leb_spec 1844674407370955162 n); [lia|].
  destruct (Z.ltb_spec 18446744073709551615 (n * 10 + d)); [lia|].
  reflexivity.
Qed.

(** The digit loop of [ParseUint] computes what [Pos.of_uint_acc]
    computes, as long as the result fits 64 bits. *)
Lemma ParseUint_loop_acc (d : uint) (acc : positive) :
  Z.pos (Pos.of_uint_acc d acc) <= maxUint64 →
  ParseUint_loop (NilEmpty.string_of_uint d) (Z.pos acc)
  = (Z.pos (Pos.of_uint_acc d acc), None).
Proof.
  revert acc.
  induction d; intros acc Hmax; [reflexivity|..];
    cbn [NilEmpty.string_of_uint Pos.of_uint_acc] in *;
    match type of Hmax with
    | Z.pos (Pos.of_uint_acc d ?a) <= _ =>
        pose proof (of_uint_acc_grows d a) as Hg;
        assert (0 < 2 ^ Z.of_nat (nb_digits d))
          by (apply Z.pow_pos_nonneg; lia);
        assert (Ha : Z.pos a <= maxUint64) by nia;
        rewrite <- (IHd a Hmax);
        rewrite (ParseUint_loop_step _ _ _ (Z.pos a - Z.pos acc * 10));
          [ f_equal; lia
          | match goal with
            | |- digit_val ?c = _ =>
                let v := eval vm_compute in (digit_val c) in
                change (digit_val c) with v; f_equal; lia
            end
          | lia | lia | lia ]
    end.
Qed.

Lemma ParseUint_loop_of_uint (d : uint) :
  Z.of_N (Pos.of_uint d) <= maxUint64 →
  ParseUint_loop (NilEmpty.string_of_uint d) 0 = (Z.of_N (Pos.of_uint d), None).
Proof.
  induction d as [|d IH|d _|d _|d _|d _|d _|d _|d _|d _|d _];
    intros Hmax; [reflexivity|..];
    cbn [NilEmpty.string_of_uint Pos.of_uint N.of_uint Z.of_N] in *.
  1: rewrite (ParseUint_loop_step _ _ _ 0); [by apply IH | done | lia..].
  all: match type of Hmax with
       | Z.pos (Pos.of_uint_acc ?d0 ?a) <= _ =>
           pose proof (of_uint_acc_grows d0 a) as Hg;
           assert (0 < 2 ^ Z.of_nat (nb_digits d0))
             by (apply Z.pow_pos_nonneg; lia)
       end;
       match goal with
       | |- ParseUint_loop (String ?c _) _ = _ =>
           let v := eval vm_compute in (digit_val c) in
           match v with
           | Some ?k => rewrite (ParseUint_loop_step c _ _ k)
           end
       end;
       [ apply ParseUint_loop_acc, Hmax | reflexivity | lia | lia | nia ].
Qed.

(** A positive number is printed without a leading zero. *)
Lemma to_uint_head (p : positive) : ∀ d', Pos.to_uint p ≠ D0 d'.
Proof.
  intros d' E.
  pose proof (DecimalPos.Unsigned.to_of (Pos.to_uint p)) as H.
  rewrite DecimalPos.Unsigned.of_to in H. cbn [N.to_uint] in H.
  pose proof (DecimalPos.Unsigned.to_uint_nonzero p) as Hnz.
  destruct (nzhead (Pos.to_uint p)) eqn:En;
    [ apply (unorm_0 (Pos.to_uint p)) in En; congruence
    | pose proof (nzhead_nonzero (Pos.to_uint p) u); congruence
    | rewrite unorm_nzhead in H by congruence;
      rewrite En in H; congruence .. ].
Qed.

Lemma Atoi_Itoa (n : Z) :
  minInt64 <= n <= maxInt64 → Atoi (Itoa n) = (n, None).
Proof.
  rewrite minInt64_val, maxInt64_val. intros Hn. unfold Itoa.
  destruct n as [|p|p]; [reflexivity|..]; cbn [Z.to_int NilZero.string_of_int].
  - unfold NilZero.string_of_uint.
    pose proof (DecimalPos.Unsigned.of_to p) as Hof.
    pose proof (to_uint_head p) as Hhd.
    pose proof (ParseUint_loop_of_uint (Pos.to_uint p)) as HP.
    rewrite Hof in HP. cbn [Z.of_N] in HP.
    rewrite maxUint64_val in HP. specialize (HP ltac:(lia)).
    destruct (Pos.to_uint p) eqn:E;
      [by destruct (DecimalPos.Unsigned.to_uint_nonnil p) | by destruct (Hhd u)|..].
    all: cbn [NilEmpty.string_of_uint] in *; unfold Atoi;
         cbn [Ascii.eqb Bool.eqb orb negb andb]; unfold ParseUint; rewrite HP;
         cbv iota; rewrite maxInt64_val;
         destruct (Z.leb_spec (9223372036854775807 + 1) (Z.pos p)); [lia|];
         reflexivity.
  - unfold NilZero.string_of_uint.
    pose proof (DecimalPos.Unsigned.of_to p) as Hof.
    pose proof (ParseUint_loop_of_uint (Pos.to_uint p)) as HP.
    rewrite Hof in HP. cbn [Z.of_N] in HP.
    rewrite maxUint64_val in HP. specialize (HP ltac:(lia)).
    destruct (Pos.to_uint p) eqn:E;
      [by destruct (DecimalPos.Unsigned.to_uint_nonnil p)|..].
    all: cbn [NilEmpty.string_of_uint] in *; unfold Atoi;
         cbn [Ascii.eqb Bool.eqb orb negb andb]; unfold ParseUint; rewrite HP;
         cbv iota; rewrite maxInt64_val;
         destruct (Z.ltb_spec (9223372036854775807 + 1) (Z.pos p)); [lia|];
         reflexivity.
Qed.

End Decimal.

(** ** Strings written and read back *)

Lemma append_nil_l (s : string) : "" +:+ s = s.
Proof. reflexivity. Qed.

Lemma append_cons (c : ascii) (a b : string) :
  String c a +:+ b = String c (a +:+ b).
Proof. reflexivity. Qed.

Ltac app_simpl := cbn; rewrite ?append_cons, ?append_nil_l; cbn.

Section Strings.

Lemma append_nil_r (s : string) : s +:+ "" = s.
Proof. induction s as [|c s IH]; app_simpl; congruence. Qed.

Lemma append_assoc (a b c : string) : (a +:+ b) +:+ c = a +:+ (b +:+ c).
Proof. induction a as [|x a IH]; app_simpl; congruence. Qed.

Lemma append_length (a b : string) :
  String.length (a +:+ b) = (String.length a + String.length b)%nat.
Proof. induction a as [|x a IH]; app_simpl; congruence. Qed.

Lemma has_char_append (c : ascii) (a b : string) :
  has_char c (a +:+ b) = has_char c a || has_char c b.
Proof.
  induction a as [|x a IH]; app_simpl; [reflexivity|].
  by rewrite IH, orb_assoc.
Qed.

Lemma all_chars_append (P : ascii → bool) (a b : string) :
  all_chars P (a +:+ b) = all_chars P a && all_chars P b.
Proof.
  induction a as [|x a IH]; app_simpl; [reflexivity|].
  by rewrite IH, andb_assoc.
Qed.

Lemma all_chars_has_char (P : ascii → bool) (c : ascii) (s : string) :
  all_chars P s = true → P c = false → has_char c s = false.
Proof.
  intros Hs Hc. induction s as [|x s IH]; cbn in *; [reflexivity|].
  apply andb_true_iff in Hs as [Hx Hs]. rewrite IH by done.
  destruct (Ascii.eqb_spec x c) as [->|]; [congruence | reflexivity].
Qed.

Lemma all_chars_impl (P Q : ascii → bool) (s : string) :
  (∀ c, P c = true → Q c = true) →
  all_chars P s = true → all_chars Q s = true.
Proof.
  intros HPQ. induction s as [|x s IH]; cbn; [done|].
  rewrite !andb_true_iff. intros [? ?]. auto.
Qed.

Lemma take_drop (n : nat) (s : string) : take n s +:+ drop n s = s.
Proof.
  revert s. induction n as [|n IH]; intros [|c s]; app_simpl; try done.
  by rewrite IH.
Qed.

Lemma take_length (n : nat) (s : string) :
  String.length (take n s) = Nat.min n (String.length s).
Proof.
  revert s. induction n as [|n IH]; intros [|c s]; cbn; try done.
  by rewrite IH.
Qed.

Lemma take_append (a b : string) : take (String.length a) (a +:+ b) = a.
Proof. induction a as [|x a IH]; app_simpl; [by destruct b | congruence]. Qed.

Lemma drop_append (a b : string) : drop (String.length a) (a +:+ b) = b.
Proof. induction a as [|x a IH]; app_simpl; [by destruct b | congruence]. Qed.

(** [strings.Split] *)

Lemma Split_nonempty (s : string) (sep : ascii) : Split s sep ≠ [].
Proof.
  induction s as [|c s IH]; cbn; [done|].
  destruct (Ascii.eqb c sep); [done|]. by destruct (Split s sep).
Qed.

Lemma Split_no_sep (s : string) (sep : ascii) :
  has_char sep s = false → Split s sep = [s].
Proof.
  induction s as [|c s IH]; cbn; [done|].
  intros [Hc Hs]%orb_false_iff. rewrite Hc, IH by done. reflexivity.
Qed.

Lemma Split_append (a b : string) (sep : ascii) :
  has_char sep a = false →
  Split (a +:+ String sep b) sep = a :: Split b sep.
Proof.
  induction a as [|c a IH]; app_simpl.
  - intros _. by rewrite Ascii.eqb_refl.
  - intros [Hc Ha]%orb_false_iff. by rewrite Hc, IH.
Qed.

(** The number of pieces is one more than the number of separators. *)
Lemma Split_parts_no_sep (s : string) (sep : ascii) :
  Forall (fun p => has_char sep p = false) (Split s sep).
Proof.
  induction s as [|c s IH]; cbn; [by repeat constructor|].
  destruct (Ascii.eqb c sep) eqn:E; [by constructor|].
  pose proof (Split_nonempty s sep).
  destruct (Split s sep) as [|p ps]; [done|].
  apply Forall_cons in IH as [Hp Hps]. constructor; [|done].
  cbn. by rewrite E, Hp.
Qed.

(** [bufio.Scanner] *)

Lemma dropCR_id (s : string) :
  has_char "013"%char s = false → Scanner.dropCR s = s.
Proof.
  induction s as [|c s IH]; cbn [has_char Scanner.dropCR]; [done|].
  intros [Hc Hs]%orb_false_iff. destruct s as [|c' s'].
  - by rewrite Hc.
  - by rewrite IH.
Qed.

Lemma raw_lines_append (a rest : string) :
  has_char "010"%char a = false →
  Scanner.raw_lines (a +:+ String "010"%char rest)
  = a :: Scanner.raw_lines rest.
Proof.
  induction a as [|c a IH]; app_simpl.
  - intros _. reflexivity.
  - intros [Hc Ha]%orb_false_iff. by rewrite Hc, IH.
Qed.

End Strings.

(** ** The format of the hash file *)

Section FileFormat.

Lemma Itoa_nonneg_eq (p : positive) :
  Itoa (Z.pos p) = NilEmpty.string_of_uint (Pos.to_uint p).
Proof.
  unfold Itoa. cbn [Z.to_int NilZero.string_of_int].
  unfold NilZero.string_of_uint.
  pose proof (DecimalPos.Unsigned.to_uint_nonnil p).
  by destruct (Pos.to_uint p).
Qed.

Lemma Itoa_digits (n : Z) : 0 <= n → all_chars is_digit (Itoa n) = true.
Proof.
  intros Hn. destruct n as [|p|p]; [reflexivity| |lia].
  rewrite Itoa_nonneg_eq. apply string_of_uint_digits.
Qed.

Lemma Itoa_length (n : Z) :
  0 <= n <= maxInt64 → (String.length (Itoa n) <= 64)%nat.
Proof.
  rewrite maxInt64_val. intros Hn.
  destruct n as [|p|p]; [cbn; lia| |lia].
  rewrite Itoa_nonneg_eq, string_of_uint_length.
  pose proof (DecimalPos.Unsigned.of_to p) as Hof.
  pose proof (to_uint_head p) as Hhd.
  pose proof (DecimalPos.Unsigned.to_uint_nonnil p) as Hnn.
  destruct (Pos.to_uint p) as [|d|d|d|d|d|d|d|d|d|d] eqn:E;
    [done | by destruct (Hhd d) | ..];
    cbn [Pos.of_uint Decimal.nb_digits] in *; injection Hof as Hof;
    match type of Hof with
    | Pos.of_uint_acc _ ?a = _ => pose proof (of_uint_acc_grows d a) as Hg
    end;
    rewrite Hof in Hg;
    assert (Hlt : 2 ^ Z.of_nat (Decimal.nb_digits d) < 2 ^ 63) by lia;
    apply Z.pow_lt_mono_r_iff in Hlt; lia.
Qed.

Lemma hex_digit_is_hex (v : Z) : 0 <= v < 16 → is_hex (hex_digit v) = true.
Proof.
  intros Hv.
  assert (v = 0 ∨ v = 1 ∨ v = 2 ∨ v = 3 ∨ v = 4 ∨ v = 5 ∨ v = 6 ∨ v = 7
          ∨ v = 8 ∨ v = 9 ∨ v = 10 ∨ v = 11 ∨ v = 12 ∨ v = 13 ∨ v = 14
          ∨ v = 15) as Hcases by lia.
  repeat (destruct Hcases as [->|Hcases]; [reflexivity|]).
  by subst.
Qed.

Lemma EncodeToString_hex (b : list Z) :
  Forall (fun v => 0 <= v < 256) b →
  all_chars is_hex (EncodeToString b) = true.
Proof.
  induction 1 as [|v r Hv _ IH]; [reflexivity|].
  cbn [EncodeToString all_chars]. rewrite IH, andb_true_r.
  rewrite !hex_digit_is_hex; [done| |].
  - change 15 with (Z.ones 4). rewrite Z.land_ones by lia.
    apply Z.mod_pos_bound. lia.
  - rewrite Z.shiftr_div_pow2 by lia. change (2 ^ 4) with 16.
    split; [apply Z.div_pos; lia | apply Z.div_lt_upper_bound; lia].
Qed.

Lemma be_bytes_range (w : nat) (v : Z) :
  Forall (fun b => 0 <= b < 256) (Sha256.be_bytes w v).
Proof.
  induction w as [|w IH]; cbn [Sha256.be_bytes]; constructor; [|done].
  change 255 with (Z.ones 8). rewrite Z.land_ones by lia.
  apply Z.mod_pos_bound. lia.
Qed.

Lemma checkSum_range (d : Sha256.digest) :
  Forall (fun b => 0 <= b < 256) (Sha256.checkSum d).
Proof.
  unfold Sha256.checkSum. apply Forall_concat, Forall_fmap, Forall_true.
  intros v. apply be_bytes_range.
Qed.

(** The digest is written in lower-case hexadecimal. *)
Lemma calculateSHA256_hex (input : string) :
  all_chars is_hex (calculateSHA256 input) = true.
Proof.
  unfold calculateSHA256. rewrite calculateSHA256_in_eq. cbn [fst].
  apply EncodeToString_hex. unfold Sha256.Sum. cbn [app].
  apply checkSum_range.
Qed.

Lemma calculateSHA256_length (input : string) :
  String.length (calculateSHA256 input) = 64%nat.
Proof.
  unfold calculateSHA256. rewrite calculateSHA256_in_eq. cbn [fst].
  rewrite EncodeToString_length. unfold Sha256.Sum. cbn [app].
  rewrite checkSum_length; [reflexivity|]. by apply Write_length.
Qed.

Lemma is_digit_is_hex (c : ascii) : is_digit c = true → is_hex c = true.
Proof. unfold is_hex. by intros ->. Qed.

Lemma record_eq (n : Z) :
  Builder.record n = record_line n +:+ Builder.newline.
Proof.
  unfold Builder.record, record_line. by rewrite !append_assoc.
Qed.

Lemma record_line_no_char (c : ascii) (n : Z) :
  0 <= n → is_hex c = false → c ≠ ":"%char →
  has_char c (record_line n) = false.
Proof.
  intros Hn Hc Hcolon. unfold record_line.
  rewrite !has_char_append, !orb_false_iff. repeat split.
  - eapply all_chars_has_char; [|exact Hc].
    eapply all_chars_impl; [apply is_digit_is_hex | by apply Itoa_digits].
  - cbn [has_char]. rewrite orb_false_r.
    destruct (Ascii.eqb_spec ":"%char c); [by subst | done].
  - eapply all_chars_has_char; [apply calculateSHA256_hex | exact Hc].
Qed.

Lemma record_line_length (n : Z) :
  0 <= n <= maxInt64 → (String.length (record_line n) <= 129)%nat.
Proof.
  intros Hn. unfold record_line.
  rewrite !append_length, calculateSHA256_length.
  pose proof (Itoa_length n Hn). cbn. lia.
Qed.

(** A line of the file splits into the identifier and its digest. *)
Lemma record_line_Split (n : Z) :
  0 <= n →
  Split (record_line n) ":" = [Itoa n; calculateSHA256 (Itoa n)].
Proof.
  intros Hn. unfold record_line.
  change (":" +:+ calculateSHA256 (Itoa n))
    with (String ":"%char (calculateSHA256 (Itoa n))).
  rewrite Split_append, Split_no_sep; [done| |].
  - eapply all_chars_has_char; [apply calculateSHA256_hex | reflexivity].
  - eapply all_chars_has_char; [by apply Itoa_digits | reflexivity].
Qed.

(** Reading the file back gives the lines that were written, in order. *)
Lemma hash_file_scan (ids : list Z) :
  Forall (fun n => 0 <= n <= maxInt64) ids →
  Scanner.scan (Scanner.raw_lines (hash_file ids)) = (record_line <$> ids, false).
Proof.
  induction 1 as [|n ids Hn _ IH]; [reflexivity|].
  cbn [hash_file foldr fmap list_fmap]. fold (hash_file ids).
  rewrite record_eq, append_assoc. unfold Builder.newline.
  rewrite append_cons, append_nil_l, raw_lines_append
    by (by apply record_line_no_char; [lia|..]).
  cbn [Scanner.scan]. rewrite IH.
  pose proof (record_line_length n Hn) as Hlen.
  destruct (Z.leb_spec Scanner.MaxScanTokenSize (GoString.len (record_line n)))
    as [Hbig|_].
  { unfold GoString.len, Scanner.MaxScanTokenSize in Hbig. lia. }
  rewrite dropCR_id by (by apply record_line_no_char; [lia|..]).
  reflexivity.
Qed.

Lemma hash_file_lines (ids : list Z) :
  Forall (fun n => 0 <= n <= maxInt64) ids →
  Scanner.lines (hash_file ids) = record_line <$> ids
  ∧ Scanner.Err (hash_file ids) = false.
Proof.
  intros H. unfold Scanner.lines, Scanner.Err. by rewrite hash_file_scan.
Qed.

End FileFormat.

(** ** Looking up what the build wrote *)

Section BuiltFile.

Lemma matches_record_line (hash : string) (m : Z) :
  0 <= m →
  HashFile.matches hash (record_line m)
  = String.eqb (calculateSHA256 (Itoa m)) hash.
Proof.
  intros Hm. unfold HashFile.matches. by rewrite record_line_Split.
Qed.

Lemma id_field_record_line (m : Z) :
  0 <= m → HashFile.id_field (record_line m) = Itoa m.
Proof.
  intros Hm. unfold HashFile.id_field. by rewrite record_line_Split.
Qed.

Lemma search_record_lines (ids : list Z) (hash : string) :
  Forall (fun n => 0 <= n <= maxInt64) ids →
  HashFile.search (record_line <$> ids) hash
  = (fun m => (m, None)) <$> first_with_digest ids hash.
Proof.
  unfold first_with_digest.
  induction 1 as [|m ids Hm _ IH]; [reflexivity|].
  cbn [fmap list_fmap find]. rewrite search_cons, matches_record_line by lia.
  destruct (String.eqb _ hash); [|exact IH].
  rewrite id_field_record_line, Atoi_Itoa by (rewrite ?minInt64_val; lia).
  reflexivity.
Qed.

Lemma resolve_record_lines (ids : list Z) (hash : string) :
  Forall (fun n => 0 <= n <= maxInt64) ids →
  FileVerifier.resolve (record_line <$> ids) hash = first_with_digest ids hash.
Proof.
  unfold first_with_digest.
  induction 1 as [|m ids Hm _ IH]; [reflexivity|].
  cbn [fmap list_fmap find FileVerifier.resolve].
  rewrite record_line_Split by lia.
  destruct (String.eqb _ hash); [|exact IH].
  by rewrite Atoi_Itoa by (rewrite ?minInt64_val; lia).
Qed.

Lemma first_with_digest_In (ids : list Z) (n : Z) :
  n ∈ ids →
  ∃ m, first_with_digest ids (calculateSHA256 (Itoa n)) = Some m
       ∧ m ∈ ids
       ∧ calculateSHA256 (Itoa m) = calculateSHA256 (Itoa n).
Proof.
  unfold first_with_digest. induction ids as [|k ids IH]; [by intros ?%elem_of_nil|].
  intros Hn. cbn [find].
  destruct (String.eqb_spec (calculateSHA256 (Itoa k)) (calculateSHA256 (Itoa n)))
    as [E|E].
  - exists k. repeat split; [by left | done].
  - apply elem_of_cons in Hn as [->|Hn]; [done|].
    destruct (IH Hn) as (m & Hf & Hm & Hd). exists m.
    repeat split; [done | by right | done].
Qed.

End BuiltFile.

(** X1. In a file that holds the builder's line for each identifier of
    [ids] (identifiers as the build loop produces them, from 0 up), the
    lookup by hash returns the first identifier of the file whose digest
    is the queried hash, without error, and the not-found error when there
    is none; so the digest of an identifier of the file is resolved to
    that identifier unless an earlier identifier has the same digest. *)
Theorem lookup_in_built_file (ids : list Z) (hash : string) :
  Forall (fun n => 0 <= n <= maxInt64) ids →
  HashFile.getTokenByHashFromFile hash (Some (hash_file ids))
  = match first_with_digest ids hash with
    | Some m => (m, None)
    | None => (0, Some HashFile.ErrHashNotFound)
    end
  ∧ (∀ n, n ∈ ids →
          (∀ m, m ∈ ids →
                calculateSHA256 (Itoa m) = calculateSHA256 (Itoa n) → m = n) →
          HashFile.getTokenByHashFromFile (calculateSHA256 (Itoa n))
            (Some (hash_file ids)) = (n, None)).
Proof.
  intros Hids.
  assert (Heq : ∀ h, HashFile.getTokenByHashFromFile h (Some (hash_file ids))
                = match first_with_digest ids h with
                  | Some m => (m, None)
                  | None => (0, Some HashFile.ErrHashNotFound)
                  end).
  { intros h. unfold HashFile.getTokenByHashFromFile.
    destruct (hash_file_lines ids Hids) as [-> ->].
    rewrite search_record_lines by done.
    by destruct (first_with_digest ids h). }
  split; [apply Heq|].
  intros n Hn Huniq. rewrite Heq.
  destruct (first_with_digest_In ids n Hn) as (m & -> & Hm & Hd).
  by rewrite (Huniq m Hm Hd).
Qed.

Lemma lookup_in_built_file_witness :
  HashFile.getTokenByHashFromFile (calculateSHA256 "1") (Some (hash_file [0; 1; 2]))
  = match first_with_digest [0; 1; 2] (calculateSHA256 "1")
          return Z * option HashFile.LookupError with
    | Some m => (m, None)
    | None => (0, Some HashFile.ErrHashNotFound)
    end
  ∧ (∀ n, n ∈ [0; 1; 2] →
          (∀ m, m ∈ [0; 1; 2] →
                calculateSHA256 (Itoa m) = calculateSHA256 (Itoa n) → m = n) →
          HashFile.getTokenByHashFromFile (calculateSHA256 (Itoa n))
            (Some (hash_file [0; 1; 2])) = (n, None)).
Proof.
  apply (lookup_in_built_file [0; 1; 2] (calculateSHA256 "1")).
  repeat (apply Forall_cons; split; [rewrite maxInt64_val; lia|]).
  constructor.
Defined.

(** X2. Against such a file, the flat-file verifier answers for a token
    made of a three-byte level prefix and a hash: true exactly when the
    first identifier of the file with that digest lies within the quota of
    the decoded level, and false when the file has no identifier with that
    digest. *)
Theorem verify_in_built_file (ids : list Z) (prefix hash : string) :
  Forall (fun n => 0 <= n <= maxInt64) ids →
  String.length prefix = 3%nat →
  FileVerifier.verifyToken (hash_file ids) (prefix +:+ hash)
  = Some match first_with_digest ids hash with
         | Some m => within_quota m (token_level prefix)
         | None => false
         end.
Proof.
  intros Hids Hlen.
  rewrite file_verifyToken_eq by (rewrite append_length; lia).
  rewrite <- Hlen, take_append, drop_append.
  destruct (hash_file_lines ids Hids) as [-> _].
  rewrite resolve_record_lines by done.
  by destruct (first_with_digest ids hash).
Qed.

Lemma verify_in_built_file_witness :
  FileVerifier.verifyToken (hash_file [0; 1; 2]) ("005" +:+ calculateSHA256 "2")
  = Some match first_with_digest [0; 1; 2] (calculateSHA256 "2") with
         | Some m => within_quota m (token_level "005")
         | None => false
         end.
Proof.
  apply (verify_in_built_file [0; 1; 2] "005" (calculateSHA256 "2")).
  - repeat (apply Forall_cons; split; [rewrite maxInt64_val; lia|]).
    constructor.
  - reflexivity.
Defined.

(** ** Levels and quotas *)

Section Levels.

Lemma TrimLeft0_zeros (k : nat) (s : string) :
  TrimLeft0 (zeros k +:+ s) = TrimLeft0 s.
Proof. induction k as [|k IH]; [reflexivity|]. app_simpl. exact IH. Qed.

Lemma TrimLeft0_Itoa_pos (p : positive) :
  TrimLeft0 (Itoa (Z.pos p)) = Itoa (Z.pos p).
Proof.
  rewrite Itoa_nonneg_eq.
  pose proof (to_uint_head p) as Hhd.
  destruct (Pos.to_uint p) as [|d|d|d|d|d|d|d|d|d|d];
    [reflexivity | by destruct (Hhd d) | reflexivity..].
Qed.

Lemma token_level_Itoa (n : Z) :
  0 <= n <= maxInt64 → token_level (Itoa n) = n.
Proof.
  intros Hn. unfold token_level. destruct n as [|p|p]; [reflexivity| |lia].
  rewrite TrimLeft0_Itoa_pos, Atoi_Itoa; [reflexivity|].
  rewrite minInt64_val. lia.
Qed.

Lemma TokenMap_at_le (level : Z) : 0 <= TokenMap_at level <= 5000000.
Proof.
  unfold TokenMap_at.
  destruct (TokenMap !! level) as [q|] eqn:E; cbn; [|lia].
  assert (Hall : map_Forall (fun _ q => 0 <= q <= 5000000) TokenMap).
  { apply (bool_decide_unpack _). vm_compute. reflexivity. }
  exact (Hall _ _ E).
Qed.

Lemma TokenMap_at_mono (l1 l2 : Z) :
  1 <= l1 → l1 <= l2 → l2 <= 78 → TokenMap_at l2 <= TokenMap_at l1.
Proof.
  intros H1 H12 H2. destruct (decide (l1 = l2)) as [->|Hne]; [lia|].
  replace l2 with (l1 + Z.of_nat (S (Z.to_nat (l2 - l1 - 1)))) by lia.
  apply Z.lt_le_incl, TokenMap_decreasing_nat; lia.
Qed.

Lemma within_quota_level (n level : Z) :
  within_quota n level = true → 1 <= level <= 78 ∧ 1 <= n <= 5000000.
Proof.
  intros [Hn Hq]%within_quota_true.
  pose proof (TokenMap_at_le level).
  split; [|lia].
  destruct (decide (1 <= level <= 78)) as [|Hout]; [done|].
  assert (TokenMap_at level = 0); [|lia].
  destruct (decide (level = 0)) as [->|];
    [apply TokenMap_at_0 | apply TokenMap_at_outside; lia].
Qed.

Lemma Atoi_error_value (s : string) (v : Z) (e : NumError) :
  Atoi s = (v, Some e) → v = 0 ∨ v = maxInt64 ∨ v = minInt64.
Proof.
  unfold Atoi. destruct s as [|c r]; [intros [= <- _]; by left|].
  destruct (ParseUint _) as [un [[]|]];
    repeat case_match; intros [= <- ?]; auto; discriminate.
Qed.

Lemma take_drop_prefix (prefix hash : string) (k : nat) :
  String.length prefix = k →
  take k (prefix +:+ hash) = prefix ∧ drop k (prefix +:+ hash) = hash.
Proof. intros <-. by rewrite take_append, drop_append. Qed.

End Levels.

(** X3. A level written in decimal and padded with zeros to the three
    bytes of the prefix is decoded to that level: for every number [n] from
    0 on and [k] leading zeros that make up three bytes with it, the level
    of the token is [n] (level 0, written ["000"], included: its prefix is
    trimmed to the empty string, whose failed conversion yields 0). *)
Theorem token_level_zero_padded (k : nat) (n : Z) (hash : string) :
  0 <= n <= maxInt64 →
  (k + String.length (Itoa n) = 3)%nat →
  token_level (take 3 (zeros k +:+ Itoa n +:+ hash)) = n.
Proof.
  intros Hn Hlen.
  assert (E : take 3 (zeros k +:+ Itoa n +:+ hash) = zeros k +:+ Itoa n).
  { rewrite <- append_assoc.
    replace 3%nat with (String.length (zeros k +:+ Itoa n)).
    - apply take_append.
    - rewrite append_length, <- Hlen. f_equal.
      clear. induction k; cbn; congruence. }
  rewrite E. unfold token_level. rewrite TrimLeft0_zeros.
  by apply token_level_Itoa.
Qed.

Lemma token_level_zero_padded_witness :
  token_level (take 3 (zeros 2 +:+ Itoa 5 +:+ calculateSHA256 "100")) = 5.
Proof.
  apply (token_level_zero_padded 2 5 (calculateSHA256 "100")).
  - vm_compute. split; discriminate.
  - reflexivity.
Defined.

(** X4. The quotas make the levels nested: a token that verifies true at
    one level verifies true, with the same hash, at every lower level from
    1 on.  A token verifies true only at a level from 1 to 78 and only for
    an identifier from 1 to 5000000. *)
Theorem valid_at_lower_levels (data prefix1 prefix2 hash : string) :
  String.length prefix1 = 3%nat →
  String.length prefix2 = 3%nat →
  1 <= token_level prefix1 <= token_level prefix2 →
  FileVerifier.verifyToken data (prefix2 +:+ hash) = Some true →
  FileVerifier.verifyToken data (prefix1 +:+ hash) = Some true
  ∧ token_level prefix2 <= 78
  ∧ ∃ n, FileVerifier.resolve (Scanner.lines data) hash = Some n
         ∧ 1 <= n <= 5000000.
Proof.
  intros Hl1 Hl2 Hlev.
  rewrite !file_verifyToken_eq by (rewrite append_length; lia).
  destruct (take_drop_prefix prefix1 hash 3 Hl1) as [-> ->].
  destruct (take_drop_prefix prefix2 hash 3 Hl2) as [-> ->].
  destruct (FileVerifier.resolve _ hash) as [n|]; cbn; [|discriminate].
  intros [= Hq]. pose proof (within_quota_level _ _ Hq) as [Hlevel Hn].
  split; [|split; [lia | eauto]].
  f_equal. apply within_quota_true. apply within_quota_true in Hq.
  pose proof (TokenMap_at_mono (token_level prefix1) (token_level prefix2)).
  lia.
Qed.

Lemma valid_at_lower_levels_witness :
  FileVerifier.verifyToken (Builder.record 100) ("003" +:+ calculateSHA256 "100")
  = Some true
  ∧ token_level "005" <= 78
  ∧ ∃ n, FileVerifier.resolve (Scanner.lines (Builder.record 100))
           (calculateSHA256 "100") = Some n
         ∧ 1 <= n <= 5000000.
Proof.
  apply (valid_at_lower_levels (Builder.record 100) "003" "005"
           (calculateSHA256 "100")).
  - reflexivity.
  - reflexivity.
  - vm_compute. split; discriminate.
  - vm_compute. reflexivity.
Defined.

(** ** The two verifiers and the lookup *)

Section Agreement.

Lemma resolve_cons (line : string) (rest : list string) (hash : string) :
  FileVerifier.resolve (line :: rest) hash
  = if HashFile.matches hash line
    then Some (Atoi (HashFile.id_field line)).1
    else FileVerifier.resolve rest hash.
Proof.
  unfold HashFile.matches, HashFile.id_field. cbn [FileVerifier.resolve].
  destruct (Split line ":") as [|p0 [|p1 [|? ?]]]; try reflexivity.
Qed.

Lemma resolve_first_match (ls : list string) (hash : string) :
  FileVerifier.resolve ls hash
  = (fun line => (Atoi (HashFile.id_field line)).1)
      <$> HashFile.first_match ls hash.
Proof.
  unfold HashFile.first_match.
  induction ls as [|line rest IH]; [reflexivity|].
  rewrite resolve_cons. cbn [find].
  destruct (HashFile.matches hash line); [reflexivity | exact IH].
Qed.

End Agreement.

(** X5. The two verifiers agree: when the database holds what the flat
    file holds, a token of 67 bytes gets the same answer from the database
    verifier as from the flat-file verifier. *)
Theorem verifiers_agree (data tokenHash : string) :
  String.length tokenHash = 67%nat →
  DbVerifier.verifyToken (db_of_file data) tokenHash
  = FileVerifier.verifyToken data tokenHash.
Proof.
  intros Hlen.
  rewrite db_verifyToken_eq, file_verifyToken_eq by lia.
  rewrite Hlen. change (67 =? 67)%nat with true. cbv iota.
  unfold db_of_file. by destruct (FileVerifier.resolve _ _).
Qed.

Lemma verifiers_agree_witness :
  DbVerifier.verifyToken (db_of_file (Builder.record 100)) token_level5_id100
  = FileVerifier.verifyToken (Builder.record 100) token_level5_id100.
Proof.
  apply (verifiers_agree (Builder.record 100) token_level5_id100).
  vm_compute. reflexivity.
Defined.

(** X6. The flat-file verifier accepts a token exactly when the lookup by
    hash finds its hash without error and the identifier found is positive
    and within the quota of the token's level: a line whose identifier the
    lookup rejects as invalid never makes a token valid. *)
Theorem verify_true_iff_lookup (data tokenHash : string) :
  (3 <= String.length tokenHash)%nat →
  FileVerifier.verifyToken data tokenHash = Some true
  ↔ ∃ n, HashFile.getTokenByHashFromFile (drop 3 tokenHash) (Some data)
         = (n, None)
         ∧ 0 < n <= TokenMap_at (token_level (take 3 tokenHash)).
Proof.
  intros Hlen. rewrite file_verifyToken_eq by done.
  unfold HashFile.getTokenByHashFromFile.
  rewrite resolve_first_match, search_first_match.
  destruct (HashFile.first_match _ _) as [line|];
    cbn [fmap option_fmap option_map default fst snd].
  - destruct (Atoi (HashFile.id_field line)) as [v [e|]] eqn:E;
      cbn [fmap option_fmap option_map default fst snd].
    + split; [|intros (n & Hn & _); discriminate Hn].
      intros Hq%(inj Some)%within_quota_true.
      pose proof (TokenMap_at_le (token_level (take 3 tokenHash))).
      apply Atoi_error_value in E as [-> | [-> | ->]];
        rewrite ?maxInt64_val, ?minInt64_val in Hq; lia.
    + split.
      * intros Hq%(inj Some)%within_quota_true. by exists v.
      * intros (n & [= ->] & Hn). f_equal. by apply within_quota_true.
  - split; [discriminate|]. intros (n & Hn & _).
    by destruct (Scanner.Err data).
Qed.

Lemma verify_true_iff_lookup_witness :
  FileVerifier.verifyToken (Builder.record 100) token_level5_id100 = Some true
  ↔ ∃ n, HashFile.getTokenByHashFromFile (drop 3 token_level5_id100)
           (Some (Builder.record 100)) = (n, None)
         ∧ 0 < n <= TokenMap_at (token_level (take 3 token_level5_id100)).
Proof.
  apply (verify_true_iff_lookup (Builder.record 100) token_level5_id100).
  vm_compute. lia.
Defined.



Lemma file_handler_results_witness :
  ∃ results,
    FileVerifier.verifyTokensHandler (Some (Builder.record 100))
      (Some [token_level5_id100; "abc"; token_level5_id100]) = OK results
    ∧ dom results = list_to_set [token_level5_id100; "abc"; token_level5_id100]
    ∧ ∀ t, t ∈ [token_level5_id100; "abc"; token_level5_id100] →
           results !! t = FileVerifier.verifyToken (Builder.record 100) t.
Proof.
  apply (file_handler_results (Builder.record 100)
           [token_level5_id100; "abc"; token_level5_id100]).
  repeat (apply Forall_cons; split; [vm_compute; lia|]). constructor.
Defined.

(** ** Bounds kept by the build *)

Section BuildBounds.

Variable limit : Z.

Local Abbreviation P := (fun kv : Z * Builder.worker_pc => kv.2 ≠ Builder.WDone).

Lemma bounded_init : bounded Builder.init.
Proof.
  unfold bounded, holding. cbn. rewrite map_filter_empty, map_size_empty.
  repeat split; lia.
Qed.

Lemma bounded_step (g : Builder.goroutine) (s s' : Builder.state) :
  Builder.Inv limit s → bounded s →
  Builder.step limit g s = Some s' → bounded s'.
Proof.
  intros HI (Hsem & Hcap & Hch). unfold bounded, holding in *.
  destruct g as [|n|]; cbn [Builder.step].
  - unfold Builder.step_main. destruct (Builder.mpc s).
    + case_match.
      * destruct (Nat.ltb_spec (Builder.semaphore s) Builder.concurrency);
          [|discriminate].
        intros [= <-]. cbn.
        assert (Hfresh : Builder.workers s !! Builder.i s = None).
        { destruct (Builder.workers s !! Builder.i s) as [pc|] eqn:E;
            [|done]. apply (Builder.inv_workers _ _ HI) in E. lia. }
        rewrite map_filter_insert_True by done.
        rewrite map_size_insert_None
          by (by apply map_lookup_filter_None_2; left).
        repeat split; lia.
      * by intros [= <-].
    + case_match; [|discriminate]. by intros [= <-].
    + by intros [= <-].
    + destruct (Builder.Flush _ _). by intros [= <-].
    + by intros [= <-].
    + discriminate.
  - unfold Builder.step_worker.
    destruct (Builder.workers s !! n) as [[]|] eqn:Hn; [| | |discriminate].
    + destruct (negb _); [|discriminate]. cbn [andb].
      destruct (Nat.ltb_spec (length (Builder.hashChannel s))
                  Builder.channelBufferSize); [|discriminate].
      intros [= <-]. cbn.
      rewrite map_filter_insert_True by done.
      rewrite map_size_insert_Some
        by (exists Builder.WSend; by apply map_lookup_filter_Some).
      rewrite length_app. cbn. repeat split; lia.
    + intros [= <-]. cbn.
      rewrite map_filter_insert_False by (cbn; tauto).
      rewrite map_filter_delete.
      rewrite map_size_delete_Some
        by (exists Builder.WRelease; by apply map_lookup_filter_Some).
      repeat split; lia.
    + intros [= <-]. cbn.
      rewrite map_filter_delete.
      rewrite map_size_delete_None.
      * repeat split; lia.
      * apply map_lookup_filter_None_2. right. intros x Hx. cbn.
        rewrite Hn in Hx. injection Hx as <-. tauto.
  - unfold Builder.step_writer. destruct (Builder.rpc s).
    + destruct (Builder.hashChannel s) as [|hash rest].
      * case_match; [|discriminate]. intros [= <-]. cbn. repeat split; lia.
      * destruct (Builder.WriteString _ _ _). intros [= <-]. cbn in *.
        repeat split; lia.
    + destruct (Builder.Flush _ _). by intros [= <-].
    + discriminate.
Qed.

Lemma Inv_step (g : Builder.goroutine) (s s' : Builder.state) :
  Builder.Inv limit s → Builder.step limit g s = Some s' →
  Builder.Inv limit s'.
Proof.
  intros HI. destruct g; cbn [Builder.step].
  - by apply Inv_step_main.
  - by apply Inv_step_worker.
  - by apply Inv_step_writer.
Qed.

Lemma bounded_run (sched : list Builder.goroutine) (s s' : Builder.state) :
  Builder.Inv limit s → bounded s →
  Builder.run limit sched s = Some s' → bounded s'.
Proof.
  revert s. induction sched as [|g rest IH]; intros s HI Hb; cbn.
  - by intros [= <-].
  - destruct (Builder.step limit g s) as [s1|] eqn:E; [|discriminate].
    cbn. apply IH; [by eapply Inv_step | by eapply bounded_step].
Qed.

End BuildBounds.

(** X9. The build keeps its bounds under every schedule: in every state a
    run can reach, the semaphore counts exactly the workers that have been
    started and have not yet released their slot, there are never more
    than 100 of them, and the channel never holds more than 1000 lines. *)
Theorem build_bounded (limit : Z) (sched : list Builder.goroutine)
    (s : Builder.state) :
  Builder.run limit sched Builder.init = Some s →
  size (holding s) = Builder.semaphore s
  ∧ (size (holding s) <= 100)%nat
  ∧ (length (Builder.hashChannel s) <= 1000)%nat.
Proof.
  intros Hrun.
  destruct (bounded_run limit sched _ _ (Inv_init limit) bounded_init Hrun)
    as (Hsem & Hcap & Hch).
  rewrite <- Hsem. repeat split; [exact Hcap | exact Hch].
Qed.

Lemma build_bounded_witness :
  ∃ s, Builder.run 0 early_return Builder.init = Some s
       ∧ size (holding s) = Builder.semaphore s
       ∧ (size (holding s) <= 100)%nat
       ∧ (length (Builder.hashChannel s) <= 1000)%nat.
Proof.
  eexists. split; [vm_compute; reflexivity|].
  apply (build_bounded 0 early_return). vm_compute. reflexivity.
Defined.

(** ** What the build writes *)

Section BuildWrites.

Lemma len_0 (s : string) : GoString.len s = 0 → s = "".
Proof. unfold GoString.len. destruct s; cbn; [done | lia]. Qed.

Lemma hash_file_app (l : list Z) (n : Z) :
  hash_file (l ++ [n]) = hash_file l +:+ Builder.record n.
Proof.
  induction l as [|m l IH]; cbn [hash_file foldr app].
  - by rewrite append_nil_r.
  - fold (hash_file (l ++ [n])) (hash_file l). by rewrite IH, append_assoc.
Qed.

(** A flush that does not fail moves the buffer to the file and loses
    nothing. *)
Lemma Flush_ok (w w' : Builder.Writer) (f f' : Builder.File) :
  Builder.Flush w f = (w', f') →
  Builder.err w' = false →
  Builder.err w = false
  ∧ Builder.buf w' = ""
  ∧ Builder.content f' = Builder.content f +:+ Builder.buf w.
Proof.
  unfold Builder.Flush. destruct (Builder.err w) eqn:Ew.
  { intros [= <- <-]. congruence. }
  destruct (Z.eqb_spec (GoString.len (Builder.buf w)) 0) as [E0|_].
  { intros [= <- <-] _. apply len_0 in E0. by rewrite E0, append_nil_r. }
  unfold Builder.file_write. destruct (Builder.closed f).
  - intros [= <- <-]. discriminate.
  - by intros [= <- <-] _.
Qed.

Lemma WriteString_turn_ok (w w' : Builder.Writer) (f f' : Builder.File)
    (s s' : string) :
  Builder.WriteString_turn w f s = (w', f', s') →
  Builder.err w' = false →
  Builder.err w = false
  ∧ Builder.content f' +:+ Builder.buf w' +:+ s'
    = Builder.content f +:+ Builder.buf w +:+ s.
Proof.
  unfold Builder.WriteString_turn.
  destruct (Builder.Available w <? GoString.len s); cbn [andb];
    [|intros [= <- <- <-] ?; by split].
  destruct (Builder.err w) eqn:Ew; cbn [negb];
    [intros [= <- <- <-] ?; congruence|].
  destruct (Z.eqb_spec (GoString.len (Builder.buf w)) 0) as [E0|_].
  - unfold Builder.file_write. destruct (Builder.closed f).
    + intros [= <- <- <-]. discriminate.
    + intros [= <- <- <-] _. apply len_0 in E0. split; [done|]. cbn.
      by rewrite E0, append_nil_r.
  - destruct (Builder.Flush _ _) as [w1 f1] eqn:EF.
    intros [= <- <- <-] Hok. destruct (Flush_ok _ _ _ _ EF Hok) as (_ & -> & ->).
    split; [done|]. cbn.
    by rewrite !append_assoc, take_drop.
Qed.

(** A write that does not fail appends the string to what the file and
    the buffer hold. *)
Lemma WriteString_ok (w w' : Builder.Writer) (f f' : Builder.File)
    (s : string) :
  Builder.WriteString w f s = (w', f') →
  Builder.err w' = false →
  Builder.err w = false
  ∧ Builder.content f' +:+ Builder.buf w'
    = Builder.content f +:+ Builder.buf w +:+ s.
Proof.
  unfold Builder.WriteString.
  destruct (Builder.WriteString_turn w f s) as [[w1 f1] s1] eqn:E1.
  destruct (Builder.WriteString_turn w1 f1 s1) as [[w2 f2] s2] eqn:E2.
  destruct (Builder.err w2) eqn:Ew2; intros [= <- <-]; [congruence|].
  intros _. cbn.
  destruct (WriteString_turn_ok _ _ _ _ _ _ E2 Ew2) as [Ew1 H2].
  destruct (WriteString_turn_ok _ _ _ _ _ _ E1 Ew1) as [Ew H1].
  split; [done|]. by rewrite H2, H1.
Qed.

Variable limit : Z.

Lemma written_drained_init : written Builder.init ∧ drained Builder.init.
Proof.
  split.
  - intros _. exists 0%nat. by repeat split.
  - split; [done | discriminate].
Qed.

Lemma written_drained_step (g : Builder.goroutine) (s s' : Builder.state) :
  written s ∧ drained s →
  Builder.step limit g s = Some s' → written s' ∧ drained s'.
Proof.
  intros [Hw [Hd1 Hd2]]. unfold written, drained in *.
  destruct g as [|n|]; cbn [Builder.step].
  - unfold Builder.step_main. destruct (Builder.mpc s).
    + repeat case_match; try discriminate; by intros [= <-].
    + case_match; [|discriminate]. by intros [= <-].
    + intros [= <-]. cbn. split; [done|]. split; [|done].
      intros Hr. by destruct (Hd1 Hr) as [-> _].
    + destruct (Builder.Flush _ _) as [w f] eqn:EF. intros [= <-]. cbn.
      split.
      * intros Hok. destruct (Flush_ok _ _ _ _ EF Hok) as (Ew & -> & ->).
        destruct (Hw Ew) as (k & Hk & Hch & Hfile). exists k.
        by rewrite append_nil_r.
      * split; [done|]. intros Hr Hok.
        by destruct (Flush_ok _ _ _ _ EF Hok) as (_ & -> & _).
    + by intros [= <-].
    + discriminate.
  - unfold Builder.step_worker.
    destruct (Builder.workers s !! n) as [[]|]; [| | |discriminate].
    + destruct (Builder.chan_closed s) eqn:Hcl; [discriminate|].
      cbn [negb andb]. case_match; [|discriminate]. intros [= <-]. cbn.
      split.
      * intros Hok. destruct (Hw Hok) as (k & Hk & Hch & Hfile). exists k.
        rewrite length_app, drop_app_le, take_app_le, fmap_app by done.
        repeat split; [lia | by rewrite Hch | done].
      * split; [|done]. intros Hr. by destruct (Hd1 Hr) as [_ ?].
    + by intros [= <-].
    + by intros [= <-].
  - unfold Builder.step_writer. destruct (Builder.rpc s) eqn:Hrpc.
    + destruct (Builder.hashChannel s) as [|hash rest] eqn:Hc.
      * case_match; [|discriminate]. intros [= <-]. cbn.
        split; [exact Hw|]. split; [done | discriminate].
      * destruct (Builder.WriteString _ _ _) as [w f] eqn:EW.
        intros [= <-]. cbn. split; [|split; [done | discriminate]].
        intros Hok. destruct (WriteString_ok _ _ _ _ _ EW Hok) as [Ew Hfile].
        destruct (Hw Ew) as (k & Hk & Hch & Hold).
        destruct (skipn k (Builder.sent s)) as [|x tl] eqn:Hsk; [done|].
        injection Hch as -> ->.
        assert (Hlen : length (skipn k (Builder.sent s)) = S (length tl))
          by (by rewrite Hsk).
        rewrite length_drop in Hlen.
        exists (S k). split; [lia|]. split.
        -- replace (S k) with (k + 1)%nat by lia.
           by rewrite <- drop_drop, Hsk.
        -- rewrite Hfile, <- append_assoc, Hold.
           rewrite (take_S_r _ _ x), hash_file_app; [done|].
           rewrite <- (Nat.add_0_r k), <- lookup_drop, Hsk. reflexivity.
    + destruct (Builder.Flush _ _) as [w f] eqn:EF. intros [= <-]. cbn.
      split.
      * intros Hok. destruct (Flush_ok _ _ _ _ EF Hok) as (Ew & -> & ->).
        destruct (Hw Ew) as (k & Hk & Hch & Hfile). exists k.
        by rewrite append_nil_r.
      * split; [intros _; apply Hd1; congruence|]. intros _ Hok.
        by destruct (Flush_ok _ _ _ _ EF Hok) as (_ & -> & _).
    + discriminate.
Qed.

Lemma written_drained_run (sched : list Builder.goroutine)
    (s s' : Builder.state) :
  written s ∧ drained s →
  Builder.run limit sched s = Some s' → written s' ∧ drained s'.
Proof.
  revert s. induction sched as [|g rest IH]; intros s H; cbn.
  - by intros [= <-].
  - destruct (Builder.step limit g s) as [s1|] eqn:E; [|discriminate].
    cbn. apply IH. by eapply written_drained_step.
Qed.

End BuildWrites.

(** X10. Under every schedule, once the call has returned, the workers
    have sent the lines of the identifiers from 0 through [limit], each
    exactly once and no other: the history of the channel is a permutation
    of that range (in an order that depends on the schedule). *)
Theorem build_sends_range (limit : Z) (sched : list Builder.goroutine)
    (s : Builder.state) :
  Builder.run limit sched Builder.init = Some s →
  Builder.returned s = true →
  Builder.sent s ≡ₚ seqZ 0 (limit + 1)
  ∧ length (Builder.sent s) = Z.to_nat (limit + 1).
Proof.
  intros Hrun Hret.
  destruct (build_sends_each_identifier_once limit sched s Hrun Hret)
    as (Hnd & Hin & _).
  assert (Hperm : Builder.sent s ≡ₚ seqZ 0 (limit + 1)).
  { apply NoDup_Permutation; [done | apply NoDup_seqZ|].
    intros j. rewrite Hin, elem_of_seqZ. lia. }
  split; [done|]. by rewrite Hperm, length_seqZ.
Qed.

Lemma build_sends_range_witness :
  ∃ s, Builder.run 0 early_return Builder.init = Some s
       ∧ Builder.sent s ≡ₚ seqZ 0 (0 + 1)
       ∧ length (Builder.sent s) = Z.to_nat (0 + 1).
Proof.
  eexists. split; [vm_compute; reflexivity|].
  apply (build_sends_range 0 early_return); vm_compute; reflexivity.
Defined.



(** ** Progress of the build *)

Section BuildProgress.

Variable limit : Z.

Lemma closing_step (g : Builder.goroutine) (s s' : Builder.state) :
  closing s → Builder.step limit g s = Some s' → closing s'.
Proof.
  unfold closing. intros Hc. destruct g as [|n|]; cbn [Builder.step].
  - unfold Builder.step_main. destruct (Builder.mpc s).
    + destruct (Builder.i s <=? limit);
        [destruct (_ <? _)%nat; [|discriminate]|]; by intros [= <-].
    + destruct (Builder.wg s =? 0); [|discriminate]. by intros [= <-].
    + by intros [= <-].
    + destruct (Builder.Flush _ _). by intros [= <-].
    + by intros [= <-].
    + discriminate.
  - unfold Builder.step_worker.
    destruct (Builder.workers s !! n) as [[]|]; [| | |discriminate].
    + destruct (negb _ && _); [|discriminate]. by intros [= <-].
    + by intros [= <-].
    + by intros [= <-].
  - unfold Builder.step_writer. destruct (Builder.rpc s).
    + destruct (Builder.hashChannel s).
      * destruct (Builder.chan_closed s); [|discriminate]. by intros [= <-].
      * destruct (Builder.WriteString _ _ _). by intros [= <-].
    + destruct (Builder.Flush _ _). by intros [= <-].
    + discriminate.
Qed.

Lemma closing_run (sched : list Builder.goroutine) (s s' : Builder.state) :
  closing s → Builder.run limit sched s = Some s' → closing s'.
Proof.
  revert s. induction sched as [|g rest IH]; intros s H; cbn.
  - by intros [= <-].
  - destruct (Builder.step limit g s) as [s1|] eqn:E; [|discriminate].
    cbn. apply IH. by eapply closing_step.
Qed.

(** A live worker can step, or the writer goroutine can. *)
Lemma worker_or_writer_steps (s : Builder.state) (n : Z)
    (pc : Builder.worker_pc) :
  drained s →
  Builder.chan_closed s = false →
  Builder.workers s !! n = Some pc →
  ∃ g s', Builder.step limit g s = Some s'.
Proof.
  intros [Hd1 _] Hcl Hn.
  destruct pc.
  - destruct (Nat.ltb_spec (length (Builder.hashChannel s))
                Builder.channelBufferSize) as [Hlt|Hfull].
    + exists (Builder.Worker n). cbn. unfold Builder.step_worker.
      rewrite Hn, Hcl. cbn [negb andb].
      apply Nat.ltb_lt in Hlt. rewrite Hlt. eauto.
    + exists Builder.WriterG. cbn. unfold Builder.step_writer.
      destruct (Builder.rpc s) eqn:Hr.
      * destruct (Builder.hashChannel s) as [|hash rest].
        -- cbn in Hfull. unfold Builder.channelBufferSize in Hfull. lia.
        -- destruct (Builder.WriteString _ _ _). eauto.
      * destruct (Hd1 ltac:(congruence)) as [_ ?]. congruence.
      * destruct (Hd1 ltac:(congruence)) as [_ ?]. congruence.
  - exists (Builder.Worker n). cbn. unfold Builder.step_worker.
    rewrite Hn. eauto.
  - exists (Builder.Worker n). cbn. unfold Builder.step_worker.
    rewrite Hn. eauto.
Qed.

End BuildProgress.

(** X12. The build cannot deadlock: in every state a run can reach,
    unless every goroutine has finished, some goroutine can take a step
    (a full semaphore, a full channel or a pending [wg.Wait()] always
    leaves a worker or the writer goroutine able to run). *)
Theorem build_never_deadlocks (limit : Z) (sched : list Builder.goroutine)
    (s : Builder.state) :
  Builder.run limit sched Builder.init = Some s →
  Builder.quiescent s = false →
  ∃ g s', Builder.step limit g s = Some s'.
Proof.
  intros Hrun Hq.
  pose proof (Inv_run limit sched _ _ (Inv_init limit) Hrun) as HI.
  pose proof (bounded_run limit sched _ _ (Inv_init limit) bounded_init Hrun)
    as (Hsem & Hcap & _).
  destruct (written_drained_run limit sched _ _ written_drained_init Hrun)
    as [_ Hd].
  assert (Hcl : closing s)
    by (apply (closing_run limit sched Builder.init); [reflexivity | done]).
  unfold closing in Hcl.
  destruct (Builder.mpc s) eqn:Hpc.
  - (* in the loop *)
    destruct (Z.leb_spec (Builder.i s) limit) as [Hle|Hgt].
    + destruct (Nat.ltb_spec (Builder.semaphore s) Builder.concurrency)
        as [Hlt|Hfull].
      * exists Builder.Main. cbn. unfold Builder.step_main. rewrite Hpc.
        apply Z.leb_le in Hle. apply Nat.ltb_lt in Hlt.
        rewrite Hle, Hlt. eauto.
      * assert (Hne : holding s ≠ ∅).
        { intros E. rewrite E, map_size_empty in Hsem.
          unfold Builder.concurrency in Hfull. lia. }
        apply map_choose in Hne as (n & pc & Hn).
        apply map_lookup_filter_Some in Hn as [Hn _].
        by eapply worker_or_writer_steps.
    + exists Builder.Main. cbn. unfold Builder.step_main. rewrite Hpc.
      apply Z.leb_gt in Hgt. rewrite Hgt. eauto.
  - (* at wg.Wait() *)
    destruct (Z.eqb_spec (Builder.wg s) 0) as [Hz|Hnz].
    + exists Builder.Main. cbn. unfold Builder.step_main. rewrite Hpc.
      apply Z.eqb_eq in Hz. rewrite Hz. eauto.
    + assert (Hne : Builder.workers s ≠ ∅).
      { intros E. rewrite (Builder.inv_wg _ _ HI), E, map_size_empty in Hnz.
        lia. }
      apply map_choose in Hne as (n & pc & Hn).
      by eapply worker_or_writer_steps.
  - exists Builder.Main. cbn. unfold Builder.step_main. rewrite Hpc. eauto.
  - exists Builder.Main. cbn. unfold Builder.step_main. rewrite Hpc.
    destruct (Builder.Flush _ _). eauto.
  - exists Builder.Main. cbn. unfold Builder.step_main. rewrite Hpc. eauto.
  - (* returned: the writer goroutine is still running *)
    assert (Hws : Builder.workers s = ∅)
      by (apply (Builder.inv_waited _ _ HI); congruence).
    unfold Builder.quiescent, Builder.returned in Hq.
    rewrite Hpc, Hws, bool_decide_eq_true_2 in Hq by done. cbn in Hq.
    exists Builder.WriterG. cbn. unfold Builder.step_writer.
    destruct (Builder.rpc s); [|destruct (Builder.Flush _ _); eauto|done].
    destruct (Builder.hashChannel s).
    + rewrite Hcl. eauto.
    + destruct (Builder.WriteString _ _ _). eauto.
Qed.

Lemma build_never_deadlocks_witness :
  ∃ g s', Builder.step 0 g
            (default Builder.init (Builder.run 0 early_return Builder.init))
          = Some s'.
Proof.
  apply (build_never_deadlocks 0 early_return
           (default Builder.init (Builder.run 0 early_return Builder.init)));
    vm_compute; reflexivity.
Defined.

(** ** The lookup handlers *)

Section Handlers.

Lemma fill_spec (file : option string) (hashes : list string)
    (m : gmap string LookupHandlers.entry) (k : string) :
  LookupHandlers.fill file hashes m !! k
  = if decide (k ∈ hashes) then Some (LookupHandlers.lookup_entry file k)
    else m !! k.
Proof.
  revert m. induction hashes as [|h rest IH]; intros m.
  - by rewrite decide_False by (apply not_elem_of_nil).
  - cbn [LookupHandlers.fill]. rewrite IH.
    destruct (decide (k ∈ rest)) as [Hin|Hnin].
    + by rewrite decide_True by (by right).
    + destruct (decide (k = h)) as [->|Hne].
      * rewrite decide_True by (by left). by rewrite lookup_insert_eq.
      * rewrite decide_False by (by intros [?|?]%elem_of_cons).
        by rewrite lookup_insert_ne.
Qed.

Lemma Split_single (s b : string) (sep : ascii) :
  Split s sep = [b] → s = b.
Proof.
  revert b. induction s as [|c s IH]; intros b; cbn [Split].
  - by intros [= <-].
  - pose proof (Split_nonempty s sep) as Hne.
    destruct (Ascii.eqb c sep).
    + destruct (Split s sep); [done | discriminate].
    + destruct (Split s sep) as [|p ps] eqn:E; [done|].
      intros [= <- ->]. by rewrite (IH p).
Qed.

Lemma Split_pair (s a b : string) (sep : ascii) :
  Split s sep = [a; b] → s = a +:+ String sep b.
Proof.
  revert a. induction s as [|c s IH]; intros a; cbn [Split]; [discriminate|].
  destruct (Ascii.eqb_spec c sep) as [->|Hne].
  - intros [= <- Hs]. by rewrite (Split_single _ _ _ Hs).
  - destruct (Split s sep) as [|p ps] eqn:E; [discriminate|].
    intros [= <- ->]. by rewrite (IH p).
Qed.

Lemma digit_val_nonneg (c : ascii) (d : Z) : digit_val c = Some d → 0 <= d.
Proof.
  unfold digit_val. destruct (Z.leb_spec 48 (Z.of_nat (nat_of_ascii c)));
    cbn [andb]; [|discriminate].
  destruct (_ <=? 57); [|discriminate]. intros [= <-]. lia.
Qed.

Lemma ParseUint_loop_nonneg (s : string) (n : Z) :
  0 <= n → 0 <= (ParseUint_loop s n).1.
Proof.
  revert n. induction s as [|c s IH]; intros n Hn; cbn [ParseUint_loop];
    [done|].
  destruct (digit_val c) as [d|] eqn:Ed; [|done].
  pose proof (digit_val_nonneg _ _ Ed).
  destruct (_ <=? n); [by rewrite maxUint64_val|].
  destruct (_ <? _); [by rewrite maxUint64_val|].
  apply IH. lia.
Qed.

(** A string without a minus sign is never converted to a negative
    number. *)
Lemma Atoi_no_minus (s : string) :
  has_char "-"%char s = false → 0 <= (Atoi s).1.
Proof.
  unfold Atoi. destruct s as [|c r]; [done|]. cbn [has_char].
  intros [Hc _]%orb_false_iff. rewrite Hc. cbn [orb negb andb].
  assert (Hun : 0 <= (ParseUint (if Ascii.eqb c "+"%char then r
                                 else String c r)).1).
  { unfold ParseUint. destruct (if Ascii.eqb c "+"%char then r else String c r);
      [done|]. by apply ParseUint_loop_nonneg. }
  destruct (ParseUint _) as [un [[]|]]; cbn [fst] in *; [done|..];
    destruct (_ <=? un); cbn [fst]; rewrite ?maxInt64_val; lia.
Qed.

End Handlers.

(** X13. The handler for lookups by hash never fails on a hash: it
    answers a bad request only when decoding the body failed and the path
    names no hash, and otherwise a response with one entry per distinct
    requested hash, holding the identifier found for it or the error of
    its lookup (the opening error for every hash when the file cannot be
    opened).  After a failed decoding the hash of the path is looked up
    together with what the decoding had already stored. *)
Theorem handleGetTokenByHash_response (file : option string)
    (hashes : list string) (decodeFailed : bool) (path : string) :
  let requested :=
    if decodeFailed
    then hashes ++ [LookupHandlers.TrimPrefix path "/token/"] else hashes in
  if decodeFailed && String.eqb (LookupHandlers.TrimPrefix path "/token/") ""
  then LookupHandlers.handleGetTokenByHash file hashes decodeFailed path
       = BadRequest
  else ∃ r, LookupHandlers.handleGetTokenByHash file hashes decodeFailed path
            = OK r
            ∧ dom r = list_to_set requested
            ∧ ∀ h, h ∈ requested →
                   r !! h = Some (LookupHandlers.lookup_entry file h).
Proof.
  intros requested. unfold LookupHandlers.handleGetTokenByHash.
  assert (Hfill : ∀ l,
    dom (LookupHandlers.fill file l ∅) = list_to_set l
    ∧ ∀ h, h ∈ l → LookupHandlers.fill file l ∅ !! h
                   = Some (LookupHandlers.lookup_entry file h)).
  { intros l. split.
    - apply set_eq. intros k.
      rewrite elem_of_dom, fill_spec, elem_of_list_to_set.
      destruct (decide (k ∈ l)); [split; eauto|].
      rewrite lookup_empty. split; [by intros [? ?] | done].
    - intros h Hh. by rewrite fill_spec, decide_True. }
  subst requested. destruct decodeFailed; cbn [andb].
  - destruct (String.eqb _ ""); cbn [negb]; [reflexivity|].
    eexists. split; [reflexivity | apply Hfill].
  - eexists. split; [reflexivity | apply Hfill].
Qed.

(** X14. The handler for level and hash answers with a result exactly
    when the input is a level and a hash joined by one minus sign, the
    level converts to an integer, the hash is found without error and the
    string is added to IPFS; the result is then the level as written
    followed by the identifier found.  Because the minus sign is the
    separator, an accepted level is never negative; the level is not
    compared with the quota table. *)
Theorem handleGetLevelTokenByHash_found
    (addStringToIPFS : string → option string) (file : option string)
    (path result cid : string) :
  LookupHandlers.handleGetLevelTokenByHash addStringToIPFS file path
  = LookupHandlers.Found result cid
  ↔ ∃ level hash n,
      LookupHandlers.TrimPrefix path "/leveltoken/" = level +:+ "-" +:+ hash
      ∧ has_char "-"%char level = false
      ∧ has_char "-"%char hash = false
      ∧ (Atoi level).2 = None
      ∧ 0 <= (Atoi level).1
      ∧ HashFile.getTokenByHashFromFile hash file = (n, None)
      ∧ result = level +:+ Itoa n
      ∧ addStringToIPFS result = Some cid.
Proof.
  unfold LookupHandlers.handleGetLevelTokenByHash.
  set (input := LookupHandlers.TrimPrefix path "/leveltoken/").
  split.
  - destruct (String.eqb input ""); [discriminate|].
    pose proof (Split_parts_no_sep input "-") as Hparts.
    destruct (Split input "-") as [|level [|hash [|? ?]]] eqn:ES;
      try discriminate.
    apply Split_pair in ES.
    apply Forall_cons in Hparts as [Hl [Hh _]%Forall_cons].
    destruct (Atoi level) as [v [e|]] eqn:EA; [discriminate|].
    destruct (HashFile.getTokenByHashFromFile hash file) as [n [e|]] eqn:EL;
      [discriminate|].
    destruct (addStringToIPFS _) as [c|] eqn:EI; [|discriminate].
    intros [= <- <-]. exists level, hash, n.
    pose proof (Atoi_no_minus level Hl) as Hv.
    repeat split; try done. by rewrite EA.
  - intros (level & hash & n & Hin & Hl & Hh & HA & _ & HL & -> & HI).
    rewrite Hin.
    change (level +:+ "-" +:+ hash) with (level +:+ String "-"%char hash).
    destruct (String.eqb_spec (level +:+ String "-"%char hash) "") as [E|_].
    { destruct level; discriminate E. }
    rewrite Split_append, Split_no_sep by done.
    destruct (Atoi level) as [v [e|]]; [discriminate|].
    by rewrite HL, HI.
Qed.

(** ** Digests and separators *)

(** X15. Every digest the hasher returns is 64 characters of lower-case
    hexadecimal; in particular it contains neither the colon that
    separates the fields of a line of the hash file nor a line break, so
    a line written by the builder splits back into exactly its identifier
    and its digest. *)
Theorem calculateSHA256_format (input : string) :
  String.length (calculateSHA256 input) = 64%nat
  ∧ all_chars is_hex (calculateSHA256 input) = true
  ∧ has_char ":"%char (calculateSHA256 input) = false
  ∧ has_char "010"%char (calculateSHA256 input) = false
  ∧ (∀ n, 0 <= n →
          Split (Itoa n +:+ ":" +:+ calculateSHA256 input) ":"
          = [Itoa n; calculateSHA256 input]).
Proof.
  pose proof (calculateSHA256_hex input) as Hhex.
  repeat split.
  - apply calculateSHA256_length.
  - exact Hhex.
  - eapply all_chars_has_char; [exact Hhex | reflexivity].
  - eapply all_chars_has_char; [exact Hhex | reflexivity].
  - intros n Hn.
    change (":" +:+ calculateSHA256 input)
      with (String ":"%char (calculateSHA256 input)).
    rewrite Split_append, Split_no_sep; [done| |].
    + eapply all_chars_has_char; [exact Hhex | reflexivity].
    + eapply all_chars_has_char; [by apply Itoa_digits | reflexivity].
Qed.

(** X16. A hash that contains a colon is never found: the lookup compares
    it with the second of exactly two colon-separated fields, which holds
    no colon, so the lookup returns identifier 0 with an error and the
    flat-file verifier answers false, whatever the file holds. *)
Theorem hash_with_colon_never_found (data prefix hash : string) :
  has_char ":"%char hash = true →
  String.length prefix = 3%nat →
  HashFile.first_match (Scanner.lines data) hash = None
  ∧ (∃ e, HashFile.getTokenByHashFromFile hash (Some data) = (0, Some e))
  ∧ FileVerifier.verifyToken data (prefix +:+ hash) = Some false.
Proof.
  intros Hcolon Hlen.
  assert (Hnone : ∀ ls, HashFile.first_match ls hash = None).
  { intros ls. apply first_match_none, Forall_forall. intros line _.
    destruct (HashFile.matches hash line) eqn:E; [|done].
    apply matches_spec in E as [p0 E].
    pose proof (Split_parts_no_sep line ":") as Hparts. rewrite E in Hparts.
    apply Forall_cons in Hparts as [_ [Hh _]%Forall_cons]. congruence. }
  split; [apply Hnone|]. split.
  - unfold HashFile.getTokenByHashFromFile.
    rewrite search_first_match, Hnone. cbn. destruct (Scanner.Err data); eauto.
  - rewrite file_verifyToken_eq by (rewrite append_length; lia).
    destruct (take_drop_prefix prefix hash 3 Hlen) as [-> ->].
    by rewrite resolve_first_match, Hnone.
Qed.

Lemma hash_with_colon_never_found_witness :
  HashFile.first_match (Scanner.lines "5:a:b") "a:b" = None
  ∧ (∃ e, HashFile.getTokenByHashFromFile "a:b" (Some "5:a:b") = (0, Some e))
  ∧ FileVerifier.verifyToken "5:a:b" ("001" +:+ "a:b") = Some false.
Proof.
  apply (hash_with_colon_never_found "5:a:b" "001" "a:b"); reflexivity.
Defined.

(** ** Flattening keys *)

Section FlattenKeys.

Import Flatten.

Context {scalar : Type}.

Local Abbreviation json := (Flatten.json scalar).

(** Induction over a document, with the property available for every
    value of an object and every item of an array. *)
Lemma json_nested_ind (P : json → Prop) :
  (∀ entries, Forall (fun kv => P kv.2) entries → P (JObject entries)) →
  (∀ items, Forall P items → P (JArray items)) →
  (∀ v, P (JScalar v)) →
  ∀ value, P value.
Proof.
  intros HO HA HS.
  fix IH 1. intros [entries|items|v].
  - apply HO. induction entries as [|[k x] rest IHr]; constructor; [apply IH | exact IHr].
  - apply HA. induction items as [|x rest IHr]; constructor; [apply IH | exact IHr].
  - apply HS.
Qed.

Lemma flattenKeys_object (parentKey : string) (entries : list (string * json)) :
  flattenKeys parentKey (JObject entries)
  = JObject (fold_left (fun m kv => assign (flatten_entry parentKey kv).1
                                      (flatten_entry parentKey kv).2 m)
               entries []).
Proof.
  cbn [flattenKeys]. f_equal. generalize (@nil (string * json)).
  induction entries as [|[k x] rest IH]; intros m; [reflexivity|].
  cbn [fold_left]. rewrite <- IH. f_equal. unfold flatten_entry. cbn [fst snd].
  by destruct (isInteger k).
Qed.

Lemma assign_fresh {A} (key : string) (v : A) (m : list (string * A)) :
  key ∉ m.*1 → assign key v m = m ++ [(key, v)].
Proof.
  induction m as [|[k x] rest IH]; [done|]. cbn.
  intros [Hne Hrest]%not_elem_of_cons.
  destruct (String.eqb_spec k key) as [->|_]; [done|]. by rewrite IH.
Qed.

Lemma assign_keys {A} (key : string) (v : A) (m : list (string * A)) :
  (assign key v m).*1 = if decide (key ∈ m.*1) then m.*1 else m.*1 ++ [key].
Proof.
  induction m as [|[k x] rest IH]; [done|]. cbn.
  destruct (String.eqb_spec k key) as [->|Hne]; cbn.
  - by rewrite decide_True by (by left).
  - rewrite IH. destruct (decide (key ∈ rest.*1)).
    + by rewrite decide_True by (by right).
    + by rewrite decide_False by (by intros [?|?]%elem_of_cons).
Qed.

Lemma assign_NoDup {A} (key : string) (v : A) (m : list (string * A)) :
  NoDup m.*1 → NoDup (assign key v m).*1.
Proof.
  intros Hm. rewrite assign_keys. destruct (decide (key ∈ m.*1)); [done|].
  apply NoDup_app. repeat split; [done| |apply NoDup_singleton].
  intros k Hk ->%list_elem_of_singleton. done.
Qed.

Lemma assign_Forall {A} (Q : string * A → Prop) (key : string) (v : A)
    (m : list (string * A)) :
  Forall Q m → Q (key, v) → Forall Q (assign key v m).
Proof.
  intros Hm Hq. induction Hm as [|[k x] rest Hkx Hrest IH]; cbn.
  - by repeat constructor.
  - destruct (String.eqb k key); by constructor.
Qed.

Lemma assign_length {A} (key : string) (v : A) (m : list (string * A)) :
  (length m <= length (assign key v m) <= S (length m))%nat.
Proof.
  induction m as [|[k x] rest IH]; cbn; [lia|].
  destruct (String.eqb k key); cbn; lia.
Qed.

(** What the loop over an object builds: a map without a repeated key
    whose bindings all come from an assignment of the loop. *)
Lemma fold_assign (f : string * json → string * json)
    (Q : string * json → Prop) (entries m : list (string * json)) :
  NoDup m.*1 → Forall Q m → Forall (fun kv => Q (f kv)) entries →
  let r := fold_left (fun m kv => assign (f kv).1 (f kv).2 m) entries m in
  NoDup r.*1 ∧ Forall Q r
  ∧ (length m <= length r <= length m + length entries)%nat.
Proof.
  revert m. induction entries as [|kv rest IH]; intros m Hnd Hm Hq; cbn.
  - repeat split; [done | done | lia..].
  - apply Forall_cons in Hq as [Hkv Hrest].
    destruct (IH (assign (f kv).1 (f kv).2 m)) as (H1 & H2 & H3).
    + by apply assign_NoDup.
    + apply assign_Forall; [done|]. by destruct (f kv).
    + done.
    + pose proof (assign_length (f kv).1 (f kv).2 m). repeat split; [done..|lia|lia].
Qed.

(** When no assignment changes a key and no key repeats, the loop maps the
    bindings one by one. *)
Lemma fold_assign_map (f : string * json → string * json)
    (entries m : list (string * json)) :
  NoDup (m.*1 ++ entries.*1) →
  Forall (fun kv => (f kv).1 = kv.1) entries →
  fold_left (fun m kv => assign (f kv).1 (f kv).2 m) entries m
  = m ++ (f <$> entries).
Proof.
  revert m. induction entries as [|[k x] rest IH]; intros m Hnd Hid; cbn.
  - by rewrite app_nil_r.
  - apply Forall_cons in Hid as [Hk Hrest]. cbn [fst] in Hk.
    cbn in Hnd. apply NoDup_app in Hnd as (Hm & Hdisj & [Hkr Hr]%NoDup_cons).
    rewrite Hk.
    rewrite assign_fresh by (intros Hin; apply (Hdisj _ Hin); by left).
    rewrite IH; [|rewrite fmap_app; cbn; rewrite <- app_assoc; cbn|done].
    + rewrite <- app_assoc. cbn. do 2 f_equal.
      destruct (f (k, x)) as [k' x']. cbn in *. by subst.
    + apply NoDup_app. repeat split; [done| |by constructor].
      intros j Hj. by apply Hdisj.
Qed.

End FlattenKeys.

Section IntegerKeys.

Import Flatten.

(** The digit loop fails on a string that holds a minus sign. *)
Lemma ParseUint_loop_minus (a b : string) (n : Z) :
  ∃ v e, ParseUint_loop (a +:+ String "-"%char b) n = (v, Some e)
         ∧ (e = ErrRange → v = maxUint64).
Proof.
  revert n. induction a as [|c a IH]; intros n.
  - rewrite append_nil_l. cbn. exists 0, ErrSyntax. by split.
  - rewrite append_cons. cbn [ParseUint_loop].
    destruct (digit_val c); [|exists 0, ErrSyntax; by split].
    destruct (_ <=? n); [exists maxUint64, ErrRange; by split|].
    destruct (_ <? _); [exists maxUint64, ErrRange; by split|].
    apply IH.
Qed.

Lemma Atoi_minus_inside (a b : string) :
  a ≠ "" → (Atoi (a +:+ String "-"%char b)).2 ≠ None.
Proof.
  intros Ha. destruct a as [|c a]; [done|].
  rewrite append_cons. unfold Atoi.
  set (neg := Ascii.eqb c "-"%char).
  assert (HP : ∃ v e,
    ParseUint (if neg || Ascii.eqb c "+"%char then a +:+ String "-"%char b
               else String c (a +:+ String "-"%char b)) = (v, Some e)
    ∧ (e = ErrRange → v = maxUint64)).
  { destruct (neg || _).
    - unfold ParseUint.
      destruct (a +:+ String "-"%char b) eqn:E.
      + destruct a; discriminate E.
      + rewrite <- E. apply ParseUint_loop_minus.
    - unfold ParseUint. rewrite <- append_cons. apply ParseUint_loop_minus. }
  destruct HP as (v & e & -> & Hv).
  destruct e; [done|]. rewrite (Hv eq_refl), maxUint64_val, maxInt64_val.
  destruct neg; cbn; done.
Qed.

(** A key stored below a parent key is not an integer any more. *)
Lemma isInteger_joined (parentKey k : string) :
  parentKey ≠ "" → isInteger (joined parentKey k) = false.
Proof.
  intros Hp. unfold joined, isInteger.
  destruct (String.eqb_spec parentKey "") as [|_]; [done|]. cbn [negb].
  change ("-" +:+ k) with (String "-"%char k).
  pose proof (Atoi_minus_inside parentKey k Hp).
  by destruct (Atoi _).2.
Qed.

Lemma isInteger_nonempty (k : string) : isInteger k = true → k ≠ "".
Proof. by intros H ->. Qed.

Lemma joined_empty (k : string) : joined "" k = k.
Proof. reflexivity. Qed.

Lemma joined_nonempty (parentKey k : string) :
  k ≠ "" → joined parentKey k ≠ "".
Proof.
  unfold joined. destruct (String.eqb_spec parentKey ""); cbn [negb]; [done|].
  intros _. by destruct parentKey.
Qed.

End IntegerKeys.

Section FlattenFixed.

Import Flatten.

Context {scalar : Type}.

Local Abbreviation json := (Flatten.json scalar).

Lemma fold_right_Forall {A} (Q : A → Prop) (l : list A) :
  fold_right (fun x rest => Q x ∧ rest) True l ↔ Forall Q l.
Proof.
  induction l as [|x l IH]; cbn; [by split|].
  rewrite IH, Forall_cons. done.
Qed.

Lemma no_int_key_object (entries : list (string * json)) :
  no_int_key (JObject entries)
  ↔ NoDup entries.*1
    ∧ Forall (fun kv => isInteger kv.1 = false ∧ no_int_key kv.2) entries.
Proof.
  cbn [no_int_key]. rewrite <- fold_right_Forall.
  enough (∀ l : list (string * json),
    fold_right (fun kv rest => isInteger kv.1 = false ∧ no_int_key kv.2 ∧ rest)
      True l
    ↔ fold_right (fun kv rest => (isInteger kv.1 = false ∧ no_int_key kv.2) ∧ rest)
        True l) as -> by done.
  induction l as [|kv l IH]; cbn; [done|]. rewrite IH. tauto.
Qed.

Lemma no_int_key_array (items : list json) :
  no_int_key (JArray items) ↔ Forall no_int_key items.
Proof. cbn [no_int_key]. apply fold_right_Forall. Qed.

Lemma settled_object (entries : list (string * json)) :
  settled (JObject entries)
  ↔ NoDup entries.*1
    ∧ Forall (fun kv => if isInteger kv.1 then no_int_key kv.2
                        else settled kv.2) entries.
Proof. cbn [settled]. by rewrite <- fold_right_Forall. Qed.

Lemma settled_array (items : list json) :
  settled (JArray items) ↔ Forall settled items.
Proof. cbn [settled]. apply fold_right_Forall. Qed.

(** A document without integer keys is returned as it is, whatever the
    parent key. *)
Lemma flattenKeys_no_int_key (value : json) :
  no_int_key value → ∀ parentKey, flattenKeys parentKey value = value.
Proof.
  induction value as [entries IH|items IH|v] using json_nested_ind;
    intros Hv parentKey.
  - apply no_int_key_object in Hv as [Hnd Hall].
    rewrite flattenKeys_object, fold_assign_map; [cbn [app]; f_equal|done|].
    + rewrite <- (list_fmap_id entries) at 2. apply Forall_fmap_ext_1.
      rewrite Forall_forall in IH, Hall |- *. intros [k x] Hin.
      destruct (Hall _ Hin) as [Hk Hx]. cbn in Hk, Hx.
      unfold flatten_entry. cbn [fst snd]. rewrite Hk.
      pose proof (IH _ Hin Hx parentKey) as E. cbn in E. by rewrite E.
    + rewrite Forall_forall in Hall |- *. intros [k x] Hin.
      destruct (Hall _ Hin) as [Hk _]. unfold flatten_entry. cbn in *.
      by rewrite Hk.
  - apply no_int_key_array in Hv. cbn [flattenKeys]. f_equal.
    rewrite <- (map_id items) at 2. apply map_ext_Forall.
    rewrite Forall_forall in IH, Hv |- *. intros x Hin.
    by apply IH; [|apply Hv].
  - reflexivity.
Qed.

(** A settled document is returned as it is below the empty parent
    key. *)
Lemma flattenKeys_settled (value : json) :
  settled value → flattenKeys "" value = value.
Proof.
  induction value as [entries IH|items IH|v] using json_nested_ind; intros Hv.
  - apply settled_object in Hv as [Hnd Hall].
    rewrite flattenKeys_object, fold_assign_map; [cbn [app]; f_equal|done|].
    + rewrite <- (list_fmap_id entries) at 2. apply Forall_fmap_ext_1.
      rewrite Forall_forall in IH, Hall |- *. intros [k x] Hin.
      specialize (Hall _ Hin). cbn in Hall.
      unfold flatten_entry. cbn [fst snd].
      destruct (isInteger k).
      * by rewrite joined_empty, flattenKeys_no_int_key.
      * pose proof (IH _ Hin Hall) as E. cbn in E. by rewrite E.
    + apply Forall_forall. intros [k x] _. unfold flatten_entry. cbn.
      by destruct (isInteger k).
  - apply settled_array in Hv. cbn [flattenKeys]. f_equal.
    rewrite <- (map_id items) at 2. apply map_ext_Forall.
    rewrite Forall_forall in IH, Hv |- *. intros x Hin.
    by apply IH; [|apply Hv].
  - reflexivity.
Qed.

(** Below a parent key the result has no integer key left. *)
Lemma flattenKeys_result_no_int_key (value : json) :
  ∀ parentKey, parentKey ≠ "" → no_int_key (flattenKeys parentKey value).
Proof.
  induction value as [entries IH|items IH|v] using json_nested_ind;
    intros parentKey Hp.
  - rewrite flattenKeys_object. apply no_int_key_object.
    destruct (fold_assign (flatten_entry parentKey)
                (fun kv => isInteger kv.1 = false ∧ no_int_key kv.2)
                entries []) as (Hnd & Hall & _); [constructor..| |done].
    rewrite Forall_forall in IH |- *. intros [k x] Hin.
    unfold flatten_entry. cbn [fst snd].
    destruct (isInteger k) eqn:Hk; cbn [fst snd].
    + split; [by apply isInteger_joined|].
      apply (IH _ Hin). by apply joined_nonempty, isInteger_nonempty.
    + split; [done|]. by apply (IH _ Hin).
  - cbn [flattenKeys]. apply no_int_key_array, Forall_map.
    rewrite Forall_forall in IH |- *. intros x Hin. by apply IH.
  - done.
Qed.

(** Below the empty parent key the result is settled. *)
Lemma flattenKeys_result_settled (value : json) :
  settled (flattenKeys "" value).
Proof.
  induction value as [entries IH|items IH|v] using json_nested_ind.
  - rewrite flattenKeys_object. apply settled_object.
    destruct (fold_assign (flatten_entry "")
                (fun kv => if isInteger kv.1 then no_int_key kv.2
                           else settled kv.2)
                entries []) as (Hnd & Hall & _); [constructor..| |done].
    rewrite Forall_forall in IH |- *. intros [k x] Hin.
    unfold flatten_entry. cbn [fst snd].
    destruct (isInteger k) eqn:Hk; cbn [fst snd].
    + rewrite joined_empty, Hk.
      by apply flattenKeys_result_no_int_key, isInteger_nonempty.
    + rewrite Hk. by apply (IH _ Hin).
  - cbn [flattenKeys]. apply settled_array, Forall_map.
    rewrite Forall_forall in IH |- *. intros x Hin. by apply IH.
  - done.
Qed.

End FlattenFixed.

Section Reordering.

Import Flatten.

Context {scalar : Type}.

Local Abbreviation json := (Flatten.json scalar).

Lemma reordered_refl (value : json) : reordered value value.
Proof.
  induction value as [entries IH|items IH|v] using json_nested_ind.
  - apply (reordered_object entries entries); [|done].
    induction IH; constructor; [by split | done].
  - apply reordered_array. induction IH; by constructor.
  - constructor.
Qed.

Lemma Forall2_transfer {A} (R : A → A → Prop) (P Q : A → Prop)
    (l l' : list A) :
  Forall2 R l l' →
  Forall (fun x => P x → ∀ y, R x y → Q y) l →
  Forall P l → Forall Q l'.
Proof.
  induction 1 as [|x y l l' Hxy _ IH]; [constructor|].
  intros [Hx Hl]%Forall_cons [Px Pl]%Forall_cons.
  constructor; [by eapply Hx | by apply IH].
Qed.

Lemma reordered_keys (entries entries' : list (string * json)) :
  Forall2 (fun kv kv' => kv.1 = kv'.1 ∧ reordered kv.2 kv'.2)
    entries entries' →
  entries'.*1 = entries.*1.
Proof.
  induction 1 as [|? ? ? ? [Hk _] _ IH]; cbn; [done | by rewrite Hk, IH].
Qed.

Lemma reordered_no_int_key (value : json) :
  no_int_key value → ∀ w, reordered value w → no_int_key w.
Proof.
  induction value as [entries IH|items IH|v] using json_nested_ind;
    intros Hv w Hr; inversion Hr as [? entries' ? HF HP|? items' HF|]; subst.
  - apply no_int_key_object in Hv as [Hnd Hall]. apply no_int_key_object.
    rewrite <- HP, (reordered_keys _ _ HF). split; [done|].
    eapply Forall2_transfer; [exact HF| |exact Hall].
    eapply Forall_impl; [exact IH|]. cbn beta.
    intros kv Hkv [Hk Hx] kv' [Ek Hr']. split; [congruence | by eapply Hkv].
  - apply no_int_key_array in Hv. apply no_int_key_array.
    eapply Forall2_transfer; [exact HF| |exact Hv].
    eapply Forall_impl; [exact IH|]. cbn beta. eauto.
  - done.
Qed.

Lemma reordered_settled (value : json) :
  settled value → ∀ w, reordered value w → settled w.
Proof.
  induction value as [entries IH|items IH|v] using json_nested_ind;
    intros Hv w Hr; inversion Hr as [? entries' ? HF HP|? items' HF|]; subst.
  - apply settled_object in Hv as [Hnd Hall]. apply settled_object.
    rewrite <- HP, (reordered_keys _ _ HF). split; [done|].
    eapply Forall2_transfer; [exact HF| |exact Hall].
    eapply Forall_impl; [exact IH|]. cbn beta.
    intros kv Hkv Hx kv' [Ek Hr']. rewrite <- Ek.
    destruct (isInteger kv.1); [by eapply reordered_no_int_key | by eapply Hkv].
  - apply settled_array in Hv. apply settled_array.
    eapply Forall2_transfer; [exact HF| |exact Hv].
    eapply Forall_impl; [exact IH|]. cbn beta. eauto.
  - done.
Qed.

End Reordering.

(** X17. Flattening is idempotent: flattening the result again, below the
    empty parent key, changes nothing, whatever the order in which the
    second pass meets the keys of each object. *)
Theorem flattenKeys_idempotent {scalar : Type} (value : Flatten.json scalar) :
  Flatten.flattenKeys "" (Flatten.flattenKeys "" value)
  = Flatten.flattenKeys "" value
  ∧ ∀ w, Flatten.reordered (Flatten.flattenKeys "" value) w →
         Flatten.flattenKeys "" w = w.
Proof.
  split.
  - apply flattenKeys_settled, flattenKeys_result_settled.
  - intros w Hr. apply flattenKeys_settled.
    eapply reordered_settled; [apply flattenKeys_result_settled | exact Hr].
Qed.

(** X18. At the top level no key is renamed: flattening an object below
    the empty parent key keeps its keys and their order; the value of an
    integer key is flattened below that key, the value of any other key
    below the empty parent key again. *)
Theorem flattenKeys_top_level {scalar : Type}
    (entries : list (string * Flatten.json scalar)) :
  NoDup entries.*1 →
  Flatten.flattenKeys "" (Flatten.JObject entries)
  = Flatten.JObject
      ((fun kv => (kv.1, Flatten.flattenKeys
                         (if Flatten.isInteger kv.1 then kv.1 else "") kv.2))
         <$> entries).
Proof.
  intros Hnd. rewrite flattenKeys_object, fold_assign_map; [cbn [app]|done|].
  - f_equal. apply Forall_fmap_ext_1, Forall_forall. intros [k x] _.
    unfold Flatten.flatten_entry. cbn [fst snd].
    destruct (Flatten.isInteger k); [by rewrite joined_empty | done].
  - apply Forall_forall. intros [k x] _.
    unfold Flatten.flatten_entry. cbn [fst snd].
    destruct (Flatten.isInteger k); [by rewrite joined_empty | done].
Qed.

Lemma flattenKeys_top_level_witness :
  Flatten.flattenKeys ""
    (Flatten.JObject
       [("1", Flatten.JObject [("2", Flatten.JScalar 7)]);
        ("a", Flatten.JScalar 8)])
  = Flatten.JObject
      ((fun kv => (kv.1, Flatten.flattenKeys
                         (if Flatten.isInteger kv.1 then kv.1 else "") kv.2))
         <$> [("1", Flatten.JObject [("2", Flatten.JScalar 7)]);
              ("a", Flatten.JScalar 8)]).
Proof.
  apply (flattenKeys_top_level
           [("1", Flatten.JObject [("2", Flatten.JScalar 7)]);
            ("a", Flatten.JScalar 8)]).
  apply (bool_decide_unpack _). vm_compute. reflexivity.
Defined.

(** X19. Below a non-empty parent key no integer key survives: at every
    depth of the result no key is an integer and no object has a key
    twice, so flattening the result once more, below any parent key,
    returns it unchanged. *)
Theorem flattenKeys_below_parent {scalar : Type} (parentKey : string)
    (value : Flatten.json scalar) :
  parentKey ≠ "" →
  Flatten.no_int_key (Flatten.flattenKeys parentKey value)
  ∧ ∀ parentKey',
      Flatten.flattenKeys parentKey' (Flatten.flattenKeys parentKey value)
      = Flatten.flattenKeys parentKey value.
Proof.
  intros Hp.
  pose proof (flattenKeys_result_no_int_key value parentKey Hp) as Hno.
  split; [exact Hno|].
  intros parentKey'. by apply flattenKeys_no_int_key.
Qed.

Lemma flattenKeys_below_parent_witness :
  Flatten.no_int_key
    (Flatten.flattenKeys "1"
       (Flatten.JObject [("2", Flatten.JObject [("3", Flatten.JScalar 7)])]))
  ∧ ∀ parentKey',
      Flatten.flattenKeys parentKey'
        (Flatten.flattenKeys "1"
           (Flatten.JObject
              [("2", Flatten.JObject [("3", Flatten.JScalar 7)])]))
      = Flatten.flattenKeys "1"
          (Flatten.JObject [("2", Flatten.JObject [("3", Flatten.JScalar 7)])]).
Proof.
  apply (flattenKeys_below_parent "1"
           (Flatten.JObject [("2", Flatten.JObject [("3", Flatten.JScalar 7)])])).
  discriminate.
Defined.

(** X20. A key that is already spelled like the joined name of an integer
    sibling collides with it: of the two values one is lost, and which one
    depends on the order in which the loop meets the two keys. *)
Theorem flattenKeys_collision {scalar : Type} (parentKey k : string)
    (a b : Flatten.json scalar) :
  parentKey ≠ "" →
  Flatten.isInteger k = true →
  Flatten.flattenKeys parentKey
    (Flatten.JObject [(k, a); (Flatten.joined parentKey k, b)])
  = Flatten.JObject
      [(Flatten.joined parentKey k, Flatten.flattenKeys parentKey b)]
  ∧ Flatten.flattenKeys parentKey
      (Flatten.JObject [(Flatten.joined parentKey k, b); (k, a)])
    = Flatten.JObject
        [(Flatten.joined parentKey k,
          Flatten.flattenKeys (Flatten.joined parentKey k) a)].
Proof.
  intros Hp Hk. pose proof (isInteger_joined parentKey k Hp) as Hj.
  rewrite !flattenKeys_object. unfold Flatten.flatten_entry.
  cbn [fold_left fst snd]. rewrite Hk, Hj. cbn [fst snd Flatten.assign].
  by rewrite String.eqb_refl.
Qed.

Lemma flattenKeys_collision_witness :
  Flatten.flattenKeys "1"
    (Flatten.JObject [("2", Flatten.JScalar 7);
                      (Flatten.joined "1" "2", Flatten.JScalar 8)])
  = Flatten.JObject
      [(Flatten.joined "1" "2", Flatten.flattenKeys "1" (Flatten.JScalar 8))]
  ∧ Flatten.flattenKeys "1"
      (Flatten.JObject [(Flatten.joined "1" "2", Flatten.JScalar 8);
                        ("2", Flatten.JScalar 7)])
    = Flatten.JObject
        [(Flatten.joined "1" "2",
          Flatten.flattenKeys (Flatten.joined "1" "2") (Flatten.JScalar 7))].
Proof.
  apply (flattenKeys_collision "1" "2" (Flatten.JScalar 7) (Flatten.JScalar 8)).
  - discriminate.
  - vm_compute. reflexivity.
Defined.

(** X21. Flattening keeps the shape of a value: an object stays an object
    with at most as many keys as before and none twice, an array keeps its
    length, and any other value is returned as it is. *)
Theorem flattenKeys_shape {scalar : Type} (parentKey : string)
    (value : Flatten.json scalar) :
  match value, Flatten.flattenKeys parentKey value with
  | Flatten.JObject entries, Flatten.JObject entries' =>
      (length entries' <= length entries)%nat ∧ NoDup entries'.*1
  | Flatten.JArray items, Flatten.JArray items' =>
      length items' = length items
  | Flatten.JScalar v, Flatten.JScalar v' => v' = v
  | _, _ => False
  end.
Proof.
  destruct value as [entries|items|v].
  - rewrite flattenKeys_object.
    destruct (fold_assign (Flatten.flatten_entry parentKey) (fun _ => True)
                entries []) as (Hnd & _ & Hlen);
      [constructor | constructor | by apply Forall_forall |].
    cbn in Hlen. split; [lia | done].
  - cbn [Flatten.flattenKeys]. by rewrite length_map.
  - reflexivity.
Qed.

(** ** Termination of the build *)

Section BuildTermination.






Variable limit : Z.






End BuildTermination.


